(** * Queue_system: the ticket queue of [app.py]

    A shallow embedding of the queue logic of the Flask backend
    ([generate_ticket_number], [update_queue_positions], [join_queue],
    [call_next], [leave_queue], [queue_stats]) over an explicit model of
    its two SQLite tables, and the properties of that logic.

    Modelling conventions.
    - The database is passed explicitly: every endpoint is a function
      [db -> db * response].  Requests are handled one at a time.
    - [CURRENT_TIMESTAMP] and [date('now')] read the clock; the clock
      value is an argument [now], in seconds (UTC), and [date] is the day
      number of a timestamp.  One request reads one clock value.
    - The [users] table is a finite map from the primary key [id] to the
      remaining columns; the [queue] table is the list of its rows in
      rowid order.  Rows are never deleted by the program.
    - [ORDER BY] is a stable sort of the scanned rows (rows with equal
      keys stay in rowid order), [fetchone()] is the head of the result.
    - Identifiers sent by clients are integers; a missing (or, for
      [join_queue], falsy) identifier is [None] (or [Some 0]).
    - The connections never switch foreign-key enforcement on, so the
      [FOREIGN KEY] clause of [queue] constrains nothing ([foreign_keys]);
      the [UNIQUE] constraint on [ticket_number] is enforced. *)

From Stdlib Require Import ZArith Ascii String Decimal DecimalNat DecimalString.
From stdpp Require Import gmap strings list sorting.

Local Open Scope string_scope.
Local Open Scope Z_scope.
Local Open Scope list_scope.

(** ** The tables *)

(** The three values the program ever writes to [queue.status]. *)
Inductive ticket_status := waiting | completed | cancelled.

#[global] Instance ticket_status_eq_dec : EqDecision ticket_status.
Proof. solve_decision. Defined.

(** Columns of [users] other than the primary key (the password hash,
    phone number and e-mail are never read by the queue logic). *)
Module Users.
Record row := mk {
  username : string;
  full_name : string;
  role : string
}.
End Users.

(** Columns of [queue].  [position] is nullable: an inserted row has
    no position until [update_queue_positions] writes one. *)
Module Queue.
Record row := mk {
  id : nat;
  user_id : Z;
  ticket_number : string;
  queue_type : string;
  status : ticket_status;
  join_time : Z;
  called_time : option Z;
  completed_time : option Z;
  position : option nat
}.

#[global] Instance row_eq_dec : EqDecision row.
Proof. solve_decision. Defined.

(** [UPDATE queue SET position = p] on one row. *)
Definition set_position (p : nat) (t : row) : row :=
  mk (id t) (user_id t) (ticket_number t) (queue_type t) (status t)
     (join_time t) (called_time t) (completed_time t) (Some p).

(** [UPDATE queue SET status = 'completed', called_time = now]. *)
Definition set_completed (now : Z) (t : row) : row :=
  mk (id t) (user_id t) (ticket_number t) (queue_type t) completed
     (join_time t) (Some now) (completed_time t) (position t).

(** [UPDATE queue SET status = 'cancelled', completed_time = now]. *)
Definition set_cancelled (now : Z) (t : row) : row :=
  mk (id t) (user_id t) (ticket_number t) (queue_type t) cancelled
     (join_time t) (called_time t) (Some now) (position t).
End Queue.

Record db := Db {
  users : gmap Z Users.row;
  queue : list Queue.row
}.

(** SQLite's [date(t)]: the calendar day of a timestamp. *)
Definition date (t : Z) : Z := t `div` 86400.

(** The next [INTEGER PRIMARY KEY AUTOINCREMENT] value: one more than the
    largest rowid (rows are never deleted, so this is also the largest
    rowid ever used). *)
Definition next_rowid (q : list Queue.row) : nat :=
  S (foldr Nat.max 0%nat (Queue.id <$> q)).

(** Exceptions the handlers can meet. *)
Inductive exn := IntegrityError | TypeError.

(** [get_db_connection] opens the connection and sets [row_factory]; it
    issues no [PRAGMA foreign_keys = ON], so the [FOREIGN KEY (user_id)
    REFERENCES users(id)] clause of the schema is parsed but not
    enforced (SQLite's per-connection default). *)
Definition foreign_keys : bool := false.

(** [INSERT INTO queue (user_id, ticket_number, queue_type, status)
    VALUES (?, ?, ?, 'waiting')]: [join_time] defaults to the clock, the
    other columns to NULL; [ticket_number] is [UNIQUE]. *)
Definition insert_queue (us : gmap Z Users.row) (now : Z) (user_id : Z)
    (ticket_number queue_type : string) (q : list Queue.row)
  : exn + list Queue.row :=
  if bool_decide (ticket_number ∈ Queue.ticket_number <$> q) then inl IntegrityError
  else if foreign_keys && bool_decide (us !! user_id = None) then inl IntegrityError
  else inr (q ++ [Queue.mk (next_rowid q) user_id ticket_number queue_type
                           waiting now None None None]).

(** ** [ORDER BY] *)

Section order_by.
Context {A : Type} (le : A → A → bool).

Fixpoint insert_sorted (x : A) (l : list A) : list A :=
  match l with
  | [] => [x]
  | y :: l' => if le x y then x :: l else y :: insert_sorted x l'
  end.

(** Stable: a row is placed before the rows that followed it in the
    scan unless their key is strictly smaller. *)
Definition order_by (l : list A) : list A := foldr insert_sorted [] l.
End order_by.

(** [ORDER BY join_time ASC]. *)
Definition by_join_time (t1 t2 : Queue.row) : bool :=
  bool_decide (Queue.join_time t1 ≤ Queue.join_time t2).

(** [ORDER BY position ASC]; NULL sorts before every number. *)
Definition position_le (p1 p2 : option nat) : bool :=
  match p1, p2 with
  | None, _ => true
  | Some _, None => false
  | Some a, Some b => bool_decide (a ≤ b)%nat
  end.

(** ** Helper functions of [app.py] *)

(** Python's [f"{n:03d}"] for a natural number. *)
Fixpoint zeros (k : nat) : string :=
  match k with
  | O => ""
  | S k' => String "0"%char (zeros k')
  end.

Definition format_03d (n : nat) : string :=
  let digits := NilEmpty.string_of_uint (Nat.to_uint n) in
  zeros (3 - String.length digits) +:+ digits.

Definition ticket_label (n : nat) : string := "TICKET-" +:+ format_03d n.

(** [SELECT COUNT( * ) FROM queue WHERE date(join_time) = date('now')
    AND status = 'waiting']. *)
Definition waiting_today (now : Z) (q : list Queue.row) : list Queue.row :=
  filter (λ t, date (Queue.join_time t) = date now ∧ Queue.status t = waiting) q.

Definition generate_ticket_number (now : Z) (q : list Queue.row) : string :=
  let count := length (waiting_today now q) in
  ticket_label (count + 1).

(** [SELECT id FROM queue WHERE status = 'waiting' ORDER BY join_time]. *)
Definition waiting_users (q : list Queue.row) : list nat :=
  Queue.id <$> order_by by_join_time (filter (λ t, Queue.status t = waiting) q).

(** [UPDATE queue SET position = ? WHERE id = ?]. *)
Definition update_position (q : list Queue.row) (idx_user : nat * nat)
  : list Queue.row :=
  let '(idx, user) := idx_user in
  (λ t, if decide (Queue.id t = user) then Queue.set_position idx t else t) <$> q.

(** [enumerate(l, start)]. *)
Definition enumerate {A} (start : nat) (l : list A) : list (nat * A) :=
  zip (seq start (length l)) l.

Definition update_queue_positions (q : list Queue.row) : list Queue.row :=
  foldl update_position q (enumerate 1 (waiting_users q)).

(** ** Endpoints *)

Inductive response :=
  | InvalidInput                                        (* 400 *)
  | Joined (ticket_number : string) (position : option nat)
           (queue_type : string)                        (* 201 *)
  | AlreadyQueued (ticket_number : string) (position : option nat)  (* 409 *)
  | PermissionDenied                                    (* 403 *)
  | EmptyQueue                                          (* 404, call_next *)
  | Called (ticket_number full_name : string)           (* 200, call_next *)
  | NotInQueue                                          (* 404, leave_queue *)
  | LeftQueue                                           (* 200, leave_queue *)
  | Stats (waiting_in_queue completed_today total_users : nat)  (* 200 *)
  | Internal (e : exn).                                 (* 500 *)

(** [POST /join_queue].  [if not user_id] rejects a missing id and 0. *)
Definition join_queue (now : Z) (user_id : option Z) (queue_type : option string)
    (s : db) : db * response :=
  let queue_type := default "general" queue_type in
  match user_id with
  | None | Some 0 => (s, InvalidInput)
  | Some uid =>
    match filter (λ t, Queue.user_id t = uid ∧ Queue.status t = waiting) (queue s) with
    | existing :: _ =>
        (s, AlreadyQueued (Queue.ticket_number existing) (Queue.position existing))
    | [] =>
        let ticket_number := generate_ticket_number now (queue s) in
        match insert_queue (users s) now uid ticket_number queue_type (queue s) with
        | inl e => (s, Internal e)
        | inr q1 =>
            let q2 := update_queue_positions q1 in
            match filter (λ t, Queue.ticket_number t = ticket_number) q2 with
            | r :: _ => (Db (users s) q2, Joined ticket_number (Queue.position r) queue_type)
            | [] => (Db (users s) q2, Internal TypeError)
            end
        end
    end
  end.

(** The rows of [queue q JOIN users u ON q.user_id = u.id WHERE
    q.status = 'waiting']. *)
Definition waiting_with_user (s : db) : list (Queue.row * Users.row) :=
  omap (λ q, u ← users s !! Queue.user_id q; Some (q, u))
       (filter (λ q, Queue.status q = waiting) (queue s)).

(** [POST /call_next]. *)
Definition call_next (now : Z) (admin_id : option Z) (s : db) : db * response :=
  let admin := admin_id ≫= λ i, users s !! i in
  match admin with
  | None => (s, PermissionDenied)
  | Some a =>
    if bool_decide (Users.role a ≠ "admin") then (s, PermissionDenied)
    else
      match order_by (λ r1 r2, position_le (Queue.position r1.1) (Queue.position r2.1))
                     (waiting_with_user s) with
      | [] => (s, EmptyQueue)
      | next_person :: _ =>
          let q1 := (λ t, if decide (Queue.id t = Queue.id next_person.1)
                          then Queue.set_completed now t else t) <$> queue s in
          (Db (users s) (update_queue_positions q1),
           Called (Queue.ticket_number next_person.1) (Users.full_name next_person.2))
      end
  end.

(** [DELETE /leave_queue].  The id is a query-string value: only a
    missing or empty one is falsy. *)
Definition leave_queue (now : Z) (user_id : option Z) (s : db) : db * response :=
  match user_id with
  | None => (s, InvalidInput)
  | Some uid =>
    let hit (t : Queue.row) := Queue.user_id t = uid ∧ Queue.status t = waiting in
    let rowcount := length (filter hit (queue s)) in
    if decide (rowcount = 0%nat) then (s, NotInQueue)
    else
      let q1 := (λ t, if decide (hit t) then Queue.set_cancelled now t else t)
                  <$> queue s in
      (Db (users s) (update_queue_positions q1), LeftQueue)
  end.

(** [GET /queue_stats].  [date(NULL)] is NULL and compares equal to
    nothing. *)
Definition queue_stats (now : Z) (s : db) : db * response :=
  let waiting_n := length (filter (λ t, Queue.status t = waiting) (queue s)) in
  let completed_today :=
    length (filter (λ t, Queue.status t = completed ∧
                         date <$> Queue.completed_time t = Some (date now)) (queue s)) in
  let total_users :=
    size (filter (λ iu : Z * Users.row, Users.role iu.2 ≠ "admin") (users s)) in
  (s, Stats waiting_n completed_today total_users).

(** ** Request sequences *)

Inductive request :=
  | Join (now : Z) (user_id : option Z) (queue_type : option string)
  | CallNext (now : Z) (admin_id : option Z)
  | Leave (now : Z) (user_id : option Z).

Definition handle (r : request) (s : db) : db * response :=
  match r with
  | Join now u qt => join_queue now u qt s
  | CallNext now a => call_next now a s
  | Leave now u => leave_queue now u s
  end.

Definition run (rs : list request) (s : db) : db :=
  foldl (λ s r, (handle r s).1) s rs.

(** The states the program can be in: the queue starts empty, requests
    arrive in any order with any arguments and clock values, and the
    [users] table (owned by [/register]) may change between requests. *)
Inductive reachable : db → Prop :=
  | reachable_init us : reachable (Db us [])
  | reachable_handle r s : reachable s → reachable (handle r s).1
  | reachable_users us s : reachable s → reachable (Db us (queue s)).

(** * Vocabulary of the properties *)

(** ** Predicates the properties are stated with *)

(** The rows with status [waiting]. *)
Definition waiting_rows (q : list Queue.row) : list Queue.row :=
  filter (λ t, Queue.status t = waiting) q.

(** The invariant of section 3 of the specification: the positions of
    the waiting rows are exactly 1..N, and they follow [join_time]. *)
Record positions_ok (q : list Queue.row) : Prop := {
  positions_contiguous :
    Queue.position <$> waiting_rows q ≡ₚ Some <$> seq 1 (length (waiting_rows q));
  positions_ordered : ∀ t1 t2,
    t1 ∈ waiting_rows q → t2 ∈ waiting_rows q →
    Queue.join_time t1 < Queue.join_time t2 →
    ∃ p1 p2, Queue.position t1 = Some p1 ∧ Queue.position t2 = Some p2 ∧
             (p1 < p2)%nat
}.

(** The columns no request ever rewrites. *)
Definition same_ticket (t t' : Queue.row) : Prop :=
  Queue.id t' = Queue.id t ∧ Queue.user_id t' = Queue.user_id t ∧
  Queue.ticket_number t' = Queue.ticket_number t ∧
  Queue.queue_type t' = Queue.queue_type t ∧
  Queue.join_time t' = Queue.join_time t.

(** The ['success'] field of the JSON body of a response. *)
Definition success (r : response) : bool :=
  match r with
  | Joined _ _ _ | Called _ _ | LeftQueue | Stats _ _ _ => true
  | InvalidInput | AlreadyQueued _ _ | PermissionDenied | EmptyQueue
  | NotInQueue | Internal _ => false
  end.

(** ** Notions used in the proofs *)

(** Reading back the digits of a label (leading zeros allowed). *)
Definition read_03d (s : string) : option nat :=
  Nat.of_uint <$> NilEmpty.uint_of_string s.

(** Index of the first occurrence of an id in the fetched id list. *)
Fixpoint rank_of (i : nat) (ids : list nat) : option nat :=
  match ids with
  | [] => None
  | j :: ids' => if decide (i = j) then Some 0%nat else S <$> rank_of i ids'
  end.

(** The net effect of the update loop on one row. *)
Definition assign (start : nat) (ids : list nat) (t : Queue.row) : Queue.row :=
  match rank_of (Queue.id t) ids with
  | Some k => Queue.set_position (start + k) t
  | None => t
  end.

(** The columns the position updates never touch (for any table, also
    one with repeated ids). *)
Definition core (t : Queue.row) : nat * Z * string * ticket_status :=
  (Queue.id t, Queue.user_id t, Queue.ticket_number t, Queue.status t).

(** A row-wise update that leaves a row alone, or only rewrites its
    position, or retires a waiting row ([completed] with [called_time]
    stamped, or [cancelled] with [completed_time] stamped). *)
Definition retires (g : Queue.row → Queue.row) (q : list Queue.row) : Prop :=
  ∀ t, t ∈ q →
    Queue.id (g t) = Queue.id t ∧
    Queue.user_id (g t) = Queue.user_id t ∧
    Queue.ticket_number (g t) = Queue.ticket_number t ∧
    Queue.join_time (g t) = Queue.join_time t ∧
    ((Queue.status (g t) = Queue.status t ∧
      Queue.called_time (g t) = Queue.called_time t ∧
      Queue.completed_time (g t) = Queue.completed_time t) ∨
     (Queue.status t = waiting ∧ Queue.status (g t) = completed ∧
      Queue.completed_time (g t) = Queue.completed_time t) ∨
     (Queue.status t = waiting ∧ Queue.status (g t) = cancelled)).

(** The outcome of a request on the stored rows: nothing, one row
    appended by [join_queue], or waiting rows retired by [call_next] or
    [leave_queue]; in the last two cases the positions are recomputed. *)
Inductive effect (now : Z) (s : db) : db → Prop :=
  | effect_none : effect now s s
  | effect_insert uid qt q1 :
      uid ≠ 0 →
      filter (λ t, Queue.user_id t = uid ∧ Queue.status t = waiting) (queue s) = [] →
      insert_queue (users s) now uid (generate_ticket_number now (queue s)) qt (queue s)
        = inr q1 →
      effect now s (Db (users s) (update_queue_positions q1))
  | effect_retire g :
      retires g (queue s) →
      effect now s (Db (users s) (update_queue_positions (g <$> queue s))).

(** The outcomes of [join_queue] for a non-zero user id. *)
Inductive join_outcome (now uid : Z) (qt : string) (s : db) : db * response → Prop :=
  | join_existing existing rest :
      filter (λ t, Queue.user_id t = uid ∧ Queue.status t = waiting) (queue s)
        = existing :: rest →
      join_outcome now uid qt s
        (s, AlreadyQueued (Queue.ticket_number existing) (Queue.position existing))
  | join_conflict :
      filter (λ t, Queue.user_id t = uid ∧ Queue.status t = waiting) (queue s) = [] →
      generate_ticket_number now (queue s) ∈ Queue.ticket_number <$> queue s →
      join_outcome now uid qt s (s, Internal IntegrityError)
  | join_inserted q1 r rest :
      filter (λ t, Queue.user_id t = uid ∧ Queue.status t = waiting) (queue s) = [] →
      generate_ticket_number now (queue s) ∉ Queue.ticket_number <$> queue s →
      q1 = queue s ++ [Queue.mk (next_rowid (queue s)) uid
                         (generate_ticket_number now (queue s)) qt waiting now
                         None None None] →
      filter (λ t, Queue.ticket_number t = generate_ticket_number now (queue s))
             (update_queue_positions q1) = r :: rest →
      join_outcome now uid qt s
        (Db (users s) (update_queue_positions q1),
         Joined (generate_ticket_number now (queue s)) (Queue.position r) qt).

Record queue_inv (q : list Queue.row) : Prop := {
  (** rowids are 1, 2, ... in insertion order *)
  inv_ids : Queue.id <$> q = seq 1 (length q);
  (** the k-th row ever inserted is labelled with k *)
  inv_labels : Queue.ticket_number <$> q = ticket_label <$> seq 1 (length q);
  (** all rows were inserted on one calendar day *)
  inv_same_day : ∀ t1 t2, t1 ∈ q → t2 ∈ q →
    date (Queue.join_time t1) = date (Queue.join_time t2);
  inv_user_ids : Forall (λ t, Queue.user_id t ≠ 0) q;
  (** at most one waiting row per user *)
  inv_single : NoDup (Queue.user_id <$> waiting_rows q);
  (** [completed_time] is written by [leave_queue] only *)
  inv_completed_time :
    Forall (λ t, Queue.status t ≠ cancelled → Queue.completed_time t = None) q
}.

(** ** Scenarios used to instantiate the theorems *)

Definition demo_users : gmap Z Users.row :=
  list_to_map [(1, Users.mk "admin" "System Admin" "admin");
               (2, Users.mk "bob" "Bob" "user");
               (3, Users.mk "carol" "Carol" "user");
               (4, Users.mk "dan" "Dan" "user");
               (5, Users.mk "eve" "Eve" "user");
               (6, Users.mk "fay" "Fay" "user")].

(** Five users join, then the administrator calls twice. *)
Definition demo_requests : list request :=
  [Join 100 (Some 2) None; Join 100 (Some 3) None; Join 101 (Some 4) None;
   Join 102 (Some 5) (Some "vip"); Join 103 (Some 6) None;
   CallNext 104 (Some 1); CallNext 105 (Some 1)].

Definition demo_state : db := run demo_requests (Db demo_users []).

Definition demo_row (id : nat) (user_id : Z) (queue_type : string)
    (status : ticket_status) (join_time : Z) (called_time : option Z)
    (position : nat) : Queue.row :=
  Queue.mk id user_id (ticket_label id) queue_type status join_time called_time
           None (Some position).

(** Two tickets created today, both waiting. *)
Definition two_waiting : db :=
  run [Join 100 (Some 2) None; Join 100 (Some 3) None] (Db demo_users []).

(** The ticket of the unknown user 99 joined first; Bob (user 2) joined
    after it. *)
Definition orphan_first : db :=
  run [Join 100 (Some 99) None; Join 101 (Some 2) None] (Db demo_users []).

(** * Further endpoints *)

(** [GET /queue_status]: a read of the user's waiting row, joined with
    [users].  The id is a query-string value, as in [leave_queue]. *)
Inductive queue_status_response :=
  | StatusInvalidInput                                   (* 400 *)
  | StatusNotInQueue                                     (* 200, in_queue = False *)
  | StatusInQueue (ticket_number : string) (position : option nat)
                  (status : ticket_status) (queue_type : string)
                  (join_time : Z).                       (* 200, in_queue = True *)

Definition queue_status (user_id : option Z) (s : db) : queue_status_response :=
  match user_id with
  | None => StatusInvalidInput
  | Some uid =>
    match omap (λ q, u ← users s !! Queue.user_id q; Some (q, u))
               (filter (λ q, Queue.user_id q = uid ∧ Queue.status q = waiting)
                       (queue s)) with
    | [] => StatusNotInQueue
    | queue_entry :: _ =>
        StatusInQueue (Queue.ticket_number queue_entry.1)
                      (Queue.position queue_entry.1)
                      (Queue.status queue_entry.1)
                      (Queue.queue_type queue_entry.1)
                      (Queue.join_time queue_entry.1)
    end
  end.

(** The number of rows a response reports as created. *)
Definition created (r : response) : nat :=
  match r with
  | Joined _ _ _ => 1
  | _ => 0
  end.

(** ** The whole [users] table, and the endpoints that need it

    [register], [login], [init_database] and [all_queues] read or write
    columns of [users] that the queue logic never touches.  A row of the
    whole table is a row of the three-column view above together with
    the password hash, the phone number and the e-mail ([created_at] is
    never read).  bcrypt is outside the program: [hashpw] and [checkpw]
    are parameters, and the salt drawn by [gensalt()] is an input. *)
Module Accounts.
Record row := mk {
  user : Users.row;
  password : string;
  phone_number : option string;
  email : option string
}.
End Accounts.

Record full_db := FullDb {
  accounts : gmap Z Accounts.row;
  tickets : list Queue.row
}.

(** What the queue endpoints see of the database. *)
Definition view (S : full_db) : db :=
  Db (Accounts.user <$> accounts S) (tickets S).

(** A queue endpoint run on the whole database: it reads the view and
    writes tickets only. *)
Definition lift (f : db → db * response) (S : full_db) : full_db * response :=
  (FullDb (accounts S) (queue (f (view S)).1), (f (view S)).2).

(** The next [AUTOINCREMENT] key of [users]: one more than the largest
    key, and 1 for an empty table. *)
Definition next_user_id (accs : gmap Z Accounts.row) : Z :=
  1 + foldr Z.max 0 (map_to_list accs).*1.

(** [SELECT * FROM users WHERE username = ?], first row. *)
Definition find_user (username : string) (accs : gmap Z Accounts.row)
  : option (Z * Accounts.row) :=
  head (filter (λ ia : Z * Accounts.row,
                  Users.username (Accounts.user ia.2) = username)
               (map_to_list accs)).

(** Python's [not x] for a JSON string that may be missing. *)
Definition missing (x : option string) : bool :=
  match x with
  | None => true
  | Some s => bool_decide (s = "")
  end.

Inductive register_response :=
  | RegisterMissingFields                             (* 400 *)
  | Registered (user_id : Z) (username : string)      (* 201 *)
  | UsernameExists.                                   (* 409 *)

(** [POST /register].  The [UNIQUE] constraint on [username] refuses a
    second row with the same name; [role] takes its default. *)
Definition register (hashpw : string → string → string) (salt : string)
    (username password full_name phone_number email : option string)
    (S : full_db) : full_db * register_response :=
  if missing username || missing password || missing full_name
  then (S, RegisterMissingFields)
  else
    let username := default "" username in
    let hashed := hashpw (default "" password) salt in
    match find_user username (accounts S) with
    | Some _ => (S, UsernameExists)
    | None =>
        let user_id := next_user_id (accounts S) in
        (FullDb (<[user_id := Accounts.mk
                      (Users.mk username (default "" full_name) "user") hashed
                      (Some (default "" phone_number)) (Some (default "" email))]>
                   (accounts S))
                (tickets S),
         Registered user_id username)
    end.

Inductive login_response :=
  | LoginMissingCredentials                           (* 400 *)
  | LoginInvalid                                      (* 401 *)
  | LoggedIn (user_id : Z) (username full_name role : string).  (* 200 *)

(** [POST /login]. *)
Definition login (checkpw : string → string → bool)
    (username password : option string) (S : full_db) : login_response :=
  if missing username || missing password then LoginMissingCredentials
  else
    match find_user (default "" username) (accounts S) with
    | None => LoginInvalid
    | Some (user_id, user) =>
        if checkpw (default "" password) (Accounts.password user)
        then LoggedIn user_id (Users.username (Accounts.user user))
                      (Users.full_name (Accounts.user user))
                      (Users.role (Accounts.user user))
        else LoginInvalid
    end.

(** [init_database]: the tables are created if missing (an empty table
    and a missing one are the same here), then the default admin is
    inserted unless the name is taken (the [IntegrityError] is caught). *)
Definition init_database (hashpw : string → string → string) (salt : string)
    (S : full_db) : full_db :=
  let admin_password := hashpw "admin123" salt in
  match find_user "admin" (accounts S) with
  | Some _ => S
  | None =>
      FullDb (<[next_user_id (accounts S) :=
                  Accounts.mk (Users.mk "admin" "System Admin" "admin")
                              admin_password None None]> (accounts S))
             (tickets S)
  end.

(** An element of the list returned by [GET /all_queues]. *)
Module Listing.
Record entry := mk {
  id : nat;
  ticket_number : string;
  full_name : string;
  phone_number : option string;
  position : option nat;
  queue_type : string;
  join_time : Z;
  status : ticket_status
}.
End Listing.

(** [GET /all_queues]: the waiting rows joined with [users], by
    position; returns [total_waiting] and the list. *)
Definition all_queues (S : full_db) : nat * list Listing.entry :=
  let queues :=
    order_by (λ r1 r2 : Queue.row * Accounts.row,
                position_le (Queue.position r1.1) (Queue.position r2.1))
      (omap (λ q, u ← accounts S !! Queue.user_id q; Some (q, u))
            (filter (λ q, Queue.status q = waiting) (tickets S))) in
  let queue_list :=
    (λ q : Queue.row * Accounts.row,
       Listing.mk (Queue.id q.1) (Queue.ticket_number q.1)
                  (Users.full_name (Accounts.user q.2))
                  (Accounts.phone_number q.2) (Queue.position q.1)
                  (Queue.queue_type q.1) (Queue.join_time q.1) (Queue.status q.1))
    <$> queues in
  (length queue_list, queue_list).

(** Requests to the whole application. *)
Inductive app_request :=
  | InitDatabase (salt : string)
  | Register (salt : string)
             (username password full_name phone_number email : option string)
  | QueueRequest (r : request).

Definition app_handle (hashpw : string → string → string) (r : app_request)
    (S : full_db) : full_db :=
  match r with
  | InitDatabase salt => init_database hashpw salt S
  | Register salt u p f ph e => (register hashpw salt u p f ph e S).1
  | QueueRequest r => (lift (handle r) S).1
  end.

(** The states of the whole application: the server runs
    [init_database] on start-up, on an empty database the first time,
    and then serves requests (a restart is one more [InitDatabase]). *)
Inductive app_reachable (hashpw : string → string → string) : full_db → Prop :=
  | app_reachable_init salt :
      app_reachable hashpw (init_database hashpw salt (FullDb ∅ []))
  | app_reachable_handle r S :
      app_reachable hashpw S → app_reachable hashpw (app_handle hashpw r S).

(** No two rows of [users] carry the same name. *)
Definition usernames_unique (accs : gmap Z Accounts.row) : Prop :=
  ∀ i j a b, accs !! i = Some a → accs !! j = Some b →
    Users.username (Accounts.user a) = Users.username (Accounts.user b) → i = j.

(** The row [init_database] inserts for the default admin. *)
Definition default_admin : Users.row := Users.mk "admin" "System Admin" "admin".

(** What holds of [users] in every state of the application. *)
Record app_inv (hashpw : string → string → string) (S : full_db) : Prop := {
  app_unique : usernames_unique (accounts S);
  app_admin : ∃ a salt, accounts S !! 1 = Some a ∧ Accounts.user a = default_admin ∧
                        Accounts.password a = hashpw "admin123" salt;
  app_roles : ∀ i a, accounts S !! i = Some a →
                     Users.role (Accounts.user a) = "admin" → i = 1
}.

(** A stand-in for bcrypt (the hash is the password itself), for the
    examples only. *)
Definition demo_hashpw (password salt : string) : string := password.
Definition demo_checkpw (password hashed : string) : bool :=
  bool_decide (hashed = password).

(** The default admin, Bob and Carol have registered; Bob and Carol
    have joined the queue. *)
Definition demo_app : full_db :=
  foldl (λ S r, app_handle demo_hashpw r S)
        (init_database demo_hashpw "s0" (FullDb ∅ []))
        [Register "s1" (Some "bob") (Some "pw-bob") (Some "Bob") (Some "555-0100") None;
         Register "s2" (Some "carol") (Some "pw-carol") (Some "Carol") None None;
         QueueRequest (Join 100 (Some 2) None);
         QueueRequest (Join 101 (Some 3) (Some "vip"))].

(** * Supporting lemmas *)

(** ** Lists *)

Lemma filter_fmap_comm {A} (P : A → Prop) `{!∀ x, Decision (P x)} (g : A → A)
    (l : list A) :
  (∀ x, P (g x) ↔ P x) → filter P (g <$> l) = g <$> filter P l.
Proof.
  intros Hg. induction l as [|x l IH]; [done|].
  rewrite fmap_cons, !filter_cons, IH.
  destruct (decide (P x)) as [HP|HP].
  - by rewrite decide_True by (by apply Hg).
  - by rewrite decide_False by (by rewrite Hg).
Qed.

Lemma filter_length_all {A} (P : A → Prop) `{!∀ x, Decision (P x)} (l : list A) :
  length (filter P l) = length l → Forall P l.
Proof.
  intros Hlen. apply Forall_forall. intros x Hx.
  destruct (decide (P x)) as [|Hn]; [done|].
  pose proof (length_filter_lt P l x Hx Hn). lia.
Qed.

Lemma filter_Forall_id {A} (P : A → Prop) `{!∀ x, Decision (P x)} (l : list A) :
  Forall P l → filter P l = l.
Proof.
  induction 1 as [|x l Hx _ IH]; [done|].
  by rewrite filter_cons, decide_True, IH.
Qed.

Lemma fmap_id_inj {A B} (f : A → B) (l : list A) x y :
  NoDup (f <$> l) → x ∈ l → y ∈ l → f x = f y → x = y.
Proof.
  intros Hnd [i Hi]%list_elem_of_lookup_1 [j Hj]%list_elem_of_lookup_1 Hxy.
  assert (i = j) as ->; [|congruence].
  eapply (NoDup_lookup (f <$> l)); [done| |];
    rewrite list_lookup_fmap; [by rewrite Hi | by rewrite Hj, Hxy].
Qed.

Lemma StronglySorted_lookup_lt {A} (R : relation A) (l : list A) i j x y :
  StronglySorted R l → l !! i = Some x → l !! j = Some y → (i < j)%nat → R x y.
Proof.
  intros Hs. revert i j. induction Hs as [|z l Hs IH Hz]; intros i j; [done|].
  destruct j as [|j]; [lia|]. destruct i as [|i]; cbn.
  - intros [= ->] Hy _. eapply Forall_forall in Hz; [done|].
    by eapply list_elem_of_lookup_2.
  - intros Hx Hy Hlt. apply (IH i j); [done..|lia].
Qed.

Lemma foldr_max_seq a k :
  foldr Nat.max 0%nat (seq a k) = if decide (k = 0)%nat then 0%nat else (a + k - 1)%nat.
Proof.
  revert a. induction k as [|k IH]; intros a; [done|].
  cbn [seq foldr]. rewrite IH. repeat case_decide; lia.
Qed.

(** ** Ticket labels *)

Lemma read_03d_zeros k s : read_03d (zeros k +:+ s) = read_03d s.
Proof.
  induction k as [|k IH]; [done|].
  change (zeros (S k) +:+ s) with (String "0"%char (zeros k +:+ s)).
  rewrite <-IH. unfold read_03d. cbn.
  by destruct (NilEmpty.uint_of_string (zeros k +:+ s)).
Qed.

Lemma read_03d_format n : read_03d (format_03d n) = Some n.
Proof.
  unfold format_03d. rewrite read_03d_zeros. unfold read_03d.
  by rewrite NilEmpty.usu; cbn; rewrite Unsigned.of_to.
Qed.

Lemma format_03d_inj n m : format_03d n = format_03d m → n = m.
Proof.
  intros H. apply (f_equal read_03d) in H.
  rewrite !read_03d_format in H. congruence.
Qed.

Lemma ticket_label_inj n m : ticket_label n = ticket_label m → n = m.
Proof. unfold ticket_label. cbn. intros [= H]. by apply format_03d_inj. Qed.

(** ** [ORDER BY] returns the scanned rows, sorted *)

Section order_by_facts.
Context {A : Type} (le : A → A → bool).
Hypothesis le_total : ∀ x y, le x y = false → le y x = true.
Hypothesis le_trans : ∀ x y z, le x y = true → le y z = true → le x z = true.

Lemma insert_sorted_perm x l : insert_sorted le x l ≡ₚ x :: l.
Proof.
  induction l as [|y l IH]; cbn; [done|].
  destruct (le x y); [done|]. by rewrite IH, Permutation_swap.
Qed.

Lemma order_by_perm l : order_by le l ≡ₚ l.
Proof.
  induction l as [|x l IH]; cbn; [done|].
  by rewrite insert_sorted_perm, IH.
Qed.

Lemma insert_sorted_sorted x l :
  StronglySorted (λ a b, le a b = true) l →
  StronglySorted (λ a b, le a b = true) (insert_sorted le x l).
Proof.
  induction 1 as [|y l Hl IH Hy]; cbn.
  { repeat constructor. }
  destruct (le x y) eqn:Hxy.
  - constructor; [by constructor|].
    constructor; [done|]. eapply Forall_impl; [exact Hy|]. eauto.
  - constructor; [done|].
    rewrite insert_sorted_perm. constructor; [by apply le_total | done].
Qed.

Lemma order_by_sorted l : StronglySorted (λ a b, le a b = true) (order_by le l).
Proof.
  induction l as [|x l IH]; cbn; [constructor|].
  by apply insert_sorted_sorted.
Qed.

Lemma order_by_length l : length (order_by le l) = length l.
Proof. by rewrite order_by_perm. Qed.

(** The first row of the result is minimal among the scanned rows. *)
Lemma order_by_head x l' l y :
  order_by le l = x :: l' → y ∈ l → le x y = true ∨ y = x.
Proof.
  intros Hs Hy. pose proof (order_by_sorted l) as Hsorted.
  rewrite <-(order_by_perm l), Hs in Hy. rewrite Hs in Hsorted.
  apply StronglySorted_cons in Hsorted as [Hall _].
  apply elem_of_cons in Hy as [->|Hy]; [by right|left].
  by eapply Forall_forall in Hall.
Qed.
End order_by_facts.

Lemma order_by_elem_of {A} (le : A → A → bool) (l : list A) x l' :
  order_by le l = x :: l' → x ∈ l.
Proof. intros H. rewrite <-(order_by_perm le l), H. left. Qed.

Lemma by_join_time_total x y : by_join_time x y = false → by_join_time y x = true.
Proof.
  unfold by_join_time. rewrite bool_decide_eq_false, bool_decide_eq_true. lia.
Qed.

Lemma by_join_time_trans x y z :
  by_join_time x y = true → by_join_time y z = true → by_join_time x z = true.
Proof. unfold by_join_time. rewrite !bool_decide_eq_true. lia. Qed.

Lemma position_le_total p1 p2 : position_le p1 p2 = false → position_le p2 p1 = true.
Proof.
  destruct p1, p2; cbn; try done.
  rewrite bool_decide_eq_false, bool_decide_eq_true. lia.
Qed.

Lemma position_le_trans p1 p2 p3 :
  position_le p1 p2 = true → position_le p2 p3 = true → position_le p1 p3 = true.
Proof.
  destruct p1, p2, p3; cbn; try done.
  rewrite !bool_decide_eq_true. lia.
Qed.

(** ** [update_queue_positions] writes each waiting row its rank *)

Lemma rank_of_None i ids : i ∉ ids → rank_of i ids = None.
Proof.
  induction ids as [|j ids IH]; cbn; [done|].
  rewrite not_elem_of_cons. intros [? ?].
  rewrite decide_False by done. by rewrite IH.
Qed.

Lemma rank_of_lookup ids k i :
  NoDup ids → ids !! k = Some i → rank_of i ids = Some k.
Proof.
  intros Hnd. revert k. induction Hnd as [|j ids Hj Hnd IH]; intros k; [done|].
  destruct k as [|k]; cbn.
  - intros [= ->]. by rewrite decide_True.
  - intros Hk. rewrite decide_False.
    + by rewrite (IH k Hk).
    + intros ->. apply Hj. by eapply list_elem_of_lookup_2.
Qed.

Lemma foldl_update_position start ids q :
  NoDup ids →
  foldl update_position q (enumerate start ids) = assign start ids <$> q.
Proof.
  intros Hnd. revert start q.
  induction Hnd as [|i ids Hi Hnd IH]; intros start q.
  { cbn. unfold assign. cbn. by rewrite list_fmap_id. }
  change (enumerate start (i :: ids)) with ((start, i) :: enumerate (S start) ids).
  cbn [foldl]. rewrite IH. cbn [update_position].
  rewrite <-list_fmap_compose. apply list_fmap_ext. intros _ t _.
  unfold assign, compose. cbn [rank_of].
  destruct (decide (Queue.id t = i)) as [Heq|Hne].
  - change (Queue.id (Queue.set_position start t)) with (Queue.id t).
    rewrite Heq, rank_of_None by done. by rewrite Nat.add_0_r.
  - destruct (rank_of (Queue.id t) ids) as [k|]; cbn; [|done].
    by rewrite Nat.add_succ_r.
Qed.

(** [assign] changes the [position] column only. *)
Lemma assign_frame start ids t :
  Queue.id (assign start ids t) = Queue.id t ∧
  Queue.user_id (assign start ids t) = Queue.user_id t ∧
  Queue.ticket_number (assign start ids t) = Queue.ticket_number t ∧
  Queue.queue_type (assign start ids t) = Queue.queue_type t ∧
  Queue.status (assign start ids t) = Queue.status t ∧
  Queue.join_time (assign start ids t) = Queue.join_time t ∧
  Queue.called_time (assign start ids t) = Queue.called_time t ∧
  Queue.completed_time (assign start ids t) = Queue.completed_time t.
Proof. unfold assign. by destruct (rank_of _ _). Qed.

Lemma update_queue_positions_spec q :
  NoDup (Queue.id <$> q) →
  update_queue_positions q = assign 1 (waiting_users q) <$> q.
Proof.
  intros Hnd. unfold update_queue_positions.
  apply foldl_update_position. unfold waiting_users.
  rewrite (order_by_perm by_join_time).
  eapply sublist_NoDup; [exact Hnd|].
  apply fmap_sublist, sublist_filter.
Qed.

Lemma update_queue_positions_core q :
  core <$> update_queue_positions q = core <$> q.
Proof.
  unfold update_queue_positions.
  generalize (enumerate 1 (waiting_users q)). intros l. revert q.
  induction l as [|[idx user] l IH]; intros q; [done|].
  cbn [foldl]. rewrite IH. cbn [update_position].
  rewrite <-list_fmap_compose. apply list_fmap_ext. intros _ t _. cbn.
  by destruct (decide _).
Qed.

Lemma update_queue_positions_ticket_numbers q :
  Queue.ticket_number <$> update_queue_positions q = Queue.ticket_number <$> q.
Proof.
  change Queue.ticket_number with ((λ c : nat * Z * string * ticket_status, c.1.2) ∘ core).
  by rewrite !list_fmap_compose, update_queue_positions_core.
Qed.

Lemma waiting_users_eq q :
  waiting_users q = Queue.id <$> order_by by_join_time (waiting_rows q).
Proof. done. Qed.

Lemma waiting_rows_assign start ids q :
  waiting_rows (assign start ids <$> q) = assign start ids <$> waiting_rows q.
Proof.
  apply filter_fmap_comm. intros t.
  by destruct (assign_frame start ids t) as (_&_&_&_&->&_).
Qed.

Lemma assign_position start w k t :
  NoDup (Queue.id <$> w) → w !! k = Some t →
  Queue.position (assign start (Queue.id <$> w) t) = Some (start + k)%nat.
Proof.
  intros Hnd Hk. unfold assign.
  rewrite (rank_of_lookup _ k); [done|done|].
  by rewrite list_lookup_fmap, Hk.
Qed.

Lemma update_queue_positions_ok q :
  NoDup (Queue.id <$> q) → positions_ok (update_queue_positions q).
Proof.
  intros Hnd. rewrite update_queue_positions_spec by done.
  rewrite waiting_users_eq.
  set (w := order_by by_join_time (waiting_rows q)).
  assert (Hw : w ≡ₚ waiting_rows q) by apply order_by_perm.
  assert (Hndw : NoDup (Queue.id <$> w)).
  { rewrite Hw. eapply sublist_NoDup; [exact Hnd|].
    apply fmap_sublist, sublist_filter. }
  split.
  - rewrite waiting_rows_assign, length_fmap, <-Hw.
    apply reflexive_eq, list_eq. intros k.
    rewrite !list_lookup_fmap.
    destruct (w !! k) as [t|] eqn:Hk; cbn.
    + rewrite (assign_position 1 w k t) by done.
      rewrite lookup_seq_lt; [done|]. by eapply lookup_lt_Some.
    + rewrite lookup_seq_ge; [done|]. by apply lookup_ge_None.
  - intros t1' t2'. rewrite waiting_rows_assign, !list_elem_of_fmap.
    intros (t1 & -> & H1) (t2 & -> & H2).
    rewrite <-Hw in H1, H2.
    apply list_elem_of_lookup_1 in H1 as [k1 H1], H2 as [k2 H2].
    destruct (assign_frame 1 (Queue.id <$> w) t1) as (_&_&_&_&_&->&_).
    destruct (assign_frame 1 (Queue.id <$> w) t2) as (_&_&_&_&_&->&_).
    intros Hlt. exists (1 + k1)%nat, (1 + k2)%nat.
    rewrite (assign_position 1 w k1 t1), (assign_position 1 w k2 t2) by done.
    split_and!; [done..|].
    destruct (decide (k1 < k2)%nat) as [|Hge]; [lia|exfalso].
    destruct (decide (k1 = k2)) as [->|Hne]; [simplify_eq; lia|].
    assert (by_join_time t2 t1 = true) as Hle.
    { eapply (StronglySorted_lookup_lt (λ a b, by_join_time a b = true) w k2 k1);
        [|done..|lia].
      apply order_by_sorted;
        [apply by_join_time_total | apply by_join_time_trans]. }
    unfold by_join_time in Hle. apply bool_decide_eq_true in Hle. lia.
Qed.

Lemma positions_ok_nil : positions_ok [].
Proof. split; [done|]. intros ? ? []%elem_of_nil. Qed.

Lemma positions_ok_lower_bound q t :
  positions_ok q → t ∈ waiting_rows q →
  ∃ p, Queue.position t = Some p ∧ (1 ≤ p ≤ length (waiting_rows q))%nat.
Proof.
  intros [Hperm _] Ht.
  apply (list_elem_of_fmap_2 Queue.position) in Ht. rewrite Hperm in Ht.
  apply list_elem_of_fmap in Ht as (p & Hp & Hin). apply elem_of_seq in Hin.
  exists p. split; [done|lia].
Qed.

(** ** What one request can do to the [queue] table *)

Lemma retires_assign start ids q : retires (assign start ids) q.
Proof.
  intros t _. destruct (assign_frame start ids t) as (?&?&?&?&?&?&?&?).
  split_and!; try done. by left.
Qed.

Lemma retires_set_completed now q t :
  NoDup (Queue.id <$> q) → t ∈ q → Queue.status t = waiting →
  retires (λ t0, if decide (Queue.id t0 = Queue.id t)
                 then Queue.set_completed now t0 else t0) q.
Proof.
  intros Hnd Ht Hw t0 Ht0.
  destruct (decide _) as [Hid|_]; cbn; split_and!; try done; [|by left].
  right; left. by rewrite (fmap_id_inj Queue.id q t0 t).
Qed.

Lemma retires_waiting_sublist g q :
  retires g q →
  Queue.user_id <$> waiting_rows (g <$> q) `sublist_of` Queue.user_id <$> waiting_rows q.
Proof.
  unfold waiting_rows. induction q as [|t q IH]; intros Hg; [done|].
  rewrite fmap_cons, !filter_cons.
  destruct (Hg t) as (_&Hu&_&_&Hs); [left|].
  assert (retires g q) as Hq by (intros t' Ht'; apply Hg; by right).
  specialize (IH Hq).
  destruct (decide (Queue.status (g t) = waiting)) as [Hw|Hw].
  - rewrite decide_True by (destruct Hs as [(?&?&?)|[(?&?&?)|(?&?)]]; congruence).
    rewrite !fmap_cons, Hu. by apply sublist_skip.
  - destruct (decide (Queue.status t = waiting)); [|done].
    rewrite fmap_cons. by apply sublist_cons.
Qed.

(** The row just inserted is found again by its ticket number, so the
    read-back of the position in [join_queue] cannot fail. *)
Lemma join_queue_outcome now uid qt s :
  uid ≠ 0 →
  join_outcome now uid (default "general" qt) s (join_queue now (Some uid) qt s).
Proof.
  intros Huid.
  assert (join_queue now (Some uid) qt s =
    match filter (λ t, Queue.user_id t = uid ∧ Queue.status t = waiting) (queue s) with
    | existing :: _ =>
        (s, AlreadyQueued (Queue.ticket_number existing) (Queue.position existing))
    | [] =>
        let ticket_number := generate_ticket_number now (queue s) in
        match insert_queue (users s) now uid ticket_number (default "general" qt)
                           (queue s) with
        | inl e => (s, Internal e)
        | inr q1 =>
            let q2 := update_queue_positions q1 in
            match filter (λ t, Queue.ticket_number t = ticket_number) q2 with
            | r :: _ => (Db (users s) q2,
                         Joined ticket_number (Queue.position r) (default "general" qt))
            | [] => (Db (users s) q2, Internal TypeError)
            end
        end
    end) as -> by by destruct uid.
  destruct (filter _ (queue s)) as [|existing rest] eqn:Hex;
    [|by eapply join_existing].
  cbn zeta. unfold insert_queue. case_bool_decide as Hdup.
  { by apply join_conflict. }
  cbn [foreign_keys andb].
  destruct (filter _ (update_queue_positions _)) as [|r rest] eqn:Hf.
  - exfalso.
    match type of Hf with filter _ ?q2 = _ =>
      assert (generate_ticket_number now (queue s) ∈ Queue.ticket_number <$> q2)
        as (r & Hr & Hin)%list_elem_of_fmap
    end.
    { rewrite update_queue_positions_ticket_numbers, fmap_app.
      apply elem_of_app. right. cbn. left. }
    by eapply (filter_nil_not_elem_of _ _ r Hf).
  - by eapply join_inserted.
Qed.

Lemma join_queue_effect now u qt s : effect now s (join_queue now u qt s).1.
Proof.
  unfold join_queue. destruct u as [[|uid|uid]|]; try by constructor.
  all: destruct (filter _ (queue s)) as [|existing ?] eqn:Hex; [|by constructor].
  all: destruct (insert_queue _ _ _ _ _ _) as [e|q1] eqn:Hins; [by constructor|].
  all: cbn zeta; destruct (filter _ (update_queue_positions q1));
    cbn [fst]; by eapply effect_insert; [|exact Hex|exact Hins].
Qed.

Lemma leave_queue_effect now u s : effect now s (leave_queue now u s).1.
Proof.
  unfold leave_queue. destruct u as [uid|]; [|by constructor].
  cbn zeta. destruct (decide _); [by constructor|].
  cbn [fst]. apply effect_retire. intros t _.
  destruct (decide _) as [[_ Hw]|_]; cbn; split_and!; try done.
  - by right; right.
  - by left.
Qed.

Lemma waiting_with_user_elem_of s r :
  r ∈ waiting_with_user s → r.1 ∈ queue s ∧ Queue.status r.1 = waiting ∧
                            users s !! Queue.user_id r.1 = Some r.2.
Proof.
  unfold waiting_with_user. rewrite list_elem_of_omap.
  intros (t & Ht & Hr). apply list_elem_of_filter in Ht as [Hw Ht].
  destruct (users s !! Queue.user_id t) as [u|] eqn:Hu; [|done].
  cbn in Hr. by simplify_eq.
Qed.

Lemma waiting_with_user_fst s :
  (∀ t, t ∈ waiting_rows (queue s) → is_Some (users s !! Queue.user_id t)) →
  fst <$> waiting_with_user s = waiting_rows (queue s).
Proof.
  unfold waiting_with_user. fold (waiting_rows (queue s)).
  generalize (waiting_rows (queue s)). intros l Hall.
  induction l as [|t l IH]; [done|].
  destruct (Hall t) as [u Hu]; [left|]. cbn. rewrite Hu. cbn.
  f_equal. apply IH. intros t' Ht'. apply Hall. by right.
Qed.

Lemma call_next_effect now a s :
  NoDup (Queue.id <$> queue s) → effect now s (call_next now a s).1.
Proof.
  intros Hnd. unfold call_next. cbn zeta.
  destruct (a ≫= _) as [adm|]; [|by constructor].
  destruct (bool_decide _); [by constructor|].
  destruct (order_by _ _) as [|next ?] eqn:Hsort; [by constructor|].
  apply order_by_elem_of, waiting_with_user_elem_of in Hsort as (Hin & Hw & _).
  cbn [fst]. by apply effect_retire, retires_set_completed.
Qed.

Lemma handle_effect r s :
  NoDup (Queue.id <$> queue s) →
  ∃ now, effect now s (handle r s).1.
Proof.
  intros Hnd. destruct r as [now u qt|now a|now u]; exists now; cbn.
  - apply join_queue_effect.
  - by apply call_next_effect.
  - apply leave_queue_effect.
Qed.

(** ** Invariants of the reachable states *)

Lemma queue_inv_NoDup q : queue_inv q → NoDup (Queue.id <$> q).
Proof. intros [-> _ _ _ _ _]. apply NoDup_seq. Qed.

Lemma queue_inv_nil : queue_inv [].
Proof.
  split; cbn; try done; try constructor.
  intros ? ? []%elem_of_nil.
Qed.

Lemma queue_inv_retires g q : retires g q → queue_inv q → queue_inv (g <$> q).
Proof.
  intros Hg [Hids Hlab Hday Huid Hone Hct].
  split; rewrite ?length_fmap.
  - rewrite <-Hids, <-list_fmap_compose. apply list_fmap_ext.
    intros i t Ht. apply list_elem_of_lookup_2 in Ht. by destruct (Hg t Ht) as (?&_).
  - rewrite <-Hlab, <-list_fmap_compose. apply list_fmap_ext.
    intros i t Ht. apply list_elem_of_lookup_2 in Ht.
    by destruct (Hg t Ht) as (_&_&?&_).
  - intros ? ? (t1 & -> & H1)%list_elem_of_fmap (t2 & -> & H2)%list_elem_of_fmap.
    destruct (Hg t1 H1) as (_&_&_&->&_), (Hg t2 H2) as (_&_&_&->&_). by apply Hday.
  - rewrite Forall_fmap, Forall_forall. intros t Ht. cbn.
    rewrite Forall_forall in Huid. destruct (Hg t Ht) as (_&->&_). by apply Huid.
  - eapply sublist_NoDup; [exact Hone|]. by apply retires_waiting_sublist.
  - rewrite Forall_fmap, Forall_forall. intros t Ht. cbn.
    rewrite Forall_forall in Hct. specialize (Hct t Ht).
    destruct (Hg t Ht) as (_&_&_&_&[(Hs&_&->)|[(Hw&Hs&->)|(Hw&Hs)]]).
    + by rewrite Hs.
    + intros _. apply Hct. by rewrite Hw.
    + by rewrite Hs.
Qed.

Lemma queue_inv_update_queue_positions q :
  queue_inv q → queue_inv (update_queue_positions q).
Proof.
  intros Hq. rewrite update_queue_positions_spec by by apply queue_inv_NoDup.
  apply queue_inv_retires; [apply retires_assign | done].
Qed.

Lemma next_rowid_inv q : queue_inv q → next_rowid q = S (length q).
Proof.
  intros [Hids _ _ _ _ _]. unfold next_rowid. rewrite Hids, foldr_max_seq.
  case_decide; lia.
Qed.

(** On a store that satisfies the invariant, the [UNIQUE] constraint
    lets an insert through only when every stored row is waiting and was
    created today; the new row then gets the next label. *)
Lemma insert_queue_inv us now uid qt q q1 :
  queue_inv q →
  insert_queue us now uid (generate_ticket_number now q) qt q = inr q1 →
  length (waiting_today now q) = length q ∧
  q1 = q ++ [Queue.mk (S (length q)) uid (ticket_label (S (length q))) qt
                      waiting now None None None].
Proof.
  intros Hq. unfold insert_queue, generate_ticket_number.
  case_bool_decide as Hdup; [done|]. cbn [foldr andb orb foreign_keys].
  intros [= <-].
  assert (length (waiting_today now q) = length q) as Hlen.
  { pose proof (length_filter
      (λ t, date (Queue.join_time t) = date now ∧ Queue.status t = waiting) q) as Hle.
    fold (waiting_today now q) in Hle.
    destruct (decide (length (waiting_today now q) = length q)) as [|Hne]; [done|].
    exfalso. apply Hdup. rewrite (inv_labels q Hq).
    apply list_elem_of_fmap_2, elem_of_seq. lia. }
  split; [done|]. rewrite Hlen, (next_rowid_inv q Hq).
  by replace (length q + 1)%nat with (S (length q)) by lia.
Qed.

Lemma queue_inv_insert us now uid qt q q1 :
  queue_inv q → uid ≠ 0 →
  filter (λ t, Queue.user_id t = uid ∧ Queue.status t = waiting) q = [] →
  insert_queue us now uid (generate_ticket_number now q) qt q = inr q1 →
  queue_inv q1.
Proof.
  intros Hq Huid Hex Hins.
  destruct (insert_queue_inv _ _ _ _ _ _ Hq Hins) as [Hlen ->].
  apply filter_length_all in Hlen. rewrite Forall_forall in Hlen.
  destruct Hq as [Hids Hlab Hday Huids Hone Hct].
  split; rewrite ?length_app; cbn [length];
    rewrite ?Nat.add_1_r, ?seq_S, ?fmap_app.
  - by rewrite Hids.
  - by rewrite Hlab.
  - intros t1 t2. rewrite !elem_of_app, !list_elem_of_singleton.
    intros [H1| ->] [H2| ->]; cbn; try done.
    + by apply Hday.
    + by destruct (Hlen t1 H1).
    + by destruct (Hlen t2 H2).
  - apply Forall_app. split; [done|]. by repeat constructor.
  - unfold waiting_rows in *. rewrite filter_app, fmap_app.
    apply NoDup_app. split_and!; [done| |].
    + intros u (t & -> & Ht)%list_elem_of_fmap. apply list_elem_of_filter in Ht as [Hw Ht].
      rewrite filter_cons, decide_True by done. cbn.
      rewrite list_elem_of_singleton. intros Hu.
      eapply filter_nil_not_elem_of; [exact Hex| |exact Ht]. by split.
    + rewrite filter_cons, decide_True by done. cbn. apply NoDup_singleton.
  - apply Forall_app. split; [done|]. by repeat constructor.
Qed.

Lemma effect_inv now s s' :
  effect now s s' → queue_inv (queue s) → queue_inv (queue s').
Proof.
  intros [|uid qt q1 Huid Hex Hins|g Hg] Hq; cbn [queue]; [done| |].
  - eapply queue_inv_update_queue_positions, queue_inv_insert; eauto.
  - by apply queue_inv_update_queue_positions, queue_inv_retires.
Qed.

Lemma effect_positions now s s' :
  effect now s s' → queue_inv (queue s) → positions_ok (queue s) →
  positions_ok (queue s').
Proof.
  intros [|uid qt q1 Huid Hex Hins|g Hg] Hq Hpos; cbn [queue]; [done| |].
  - eapply update_queue_positions_ok, queue_inv_NoDup, queue_inv_insert; eauto.
  - by apply update_queue_positions_ok, queue_inv_NoDup, queue_inv_retires.
Qed.

(** One request keeps every stored row in place and either keeps its
    status or retires it from [waiting]. *)
Lemma effect_status now s s' k t :
  effect now s s' → queue_inv (queue s) → queue s !! k = Some t →
  ∃ t', queue s' !! k = Some t' ∧ Queue.id t' = Queue.id t ∧
    (Queue.status t' = Queue.status t ∨
     Queue.status t = waiting ∧
       (Queue.status t' = completed ∨ Queue.status t' = cancelled)).
Proof.
  intros [|uid qt q1 Huid Hex Hins|g Hg] Hq Hk; cbn [queue].
  - exists t. auto.
  - assert (queue_inv q1) as Hq1 by (by eapply queue_inv_insert).
    destruct (insert_queue_inv _ _ _ _ _ _ Hq Hins) as [_ Heq].
    assert (q1 !! k = Some t) as Hk1.
    { rewrite Heq, lookup_app_l; [done|]. by eapply lookup_lt_Some. }
    rewrite update_queue_positions_spec by by apply queue_inv_NoDup.
    rewrite list_lookup_fmap, Hk1. eexists; split; [done|].
    destruct (assign_frame 1 (waiting_users q1) t) as (->&_&_&_&->&_). auto.
  - rewrite update_queue_positions_spec
      by by apply queue_inv_NoDup, queue_inv_retires.
    rewrite !list_lookup_fmap, Hk. eexists; split; [done|].
    destruct (assign_frame 1 (waiting_users (g <$> queue s)) (g t))
      as (->&_&_&_&->&_).
    destruct (Hg t) as (->&_&_&_&Hs); [by eapply list_elem_of_lookup_2|].
    destruct Hs as [(?&_)|[(?&?&_)|(?&?)]]; auto.
Qed.

Lemma reachable_inv s : reachable s → queue_inv (queue s) ∧ positions_ok (queue s).
Proof.
  induction 1 as [us|r s _ [Hq Hpos]|us s _ IH]; cbn [queue]; [|..|done].
  - split; [apply queue_inv_nil | apply positions_ok_nil].
  - destruct (handle_effect r s) as [now He]; [by apply queue_inv_NoDup|].
    split; [by eapply effect_inv | by eapply effect_positions].
Qed.

Lemma reachable_run rs s : reachable s → reachable (run rs s).
Proof.
  revert s. induction rs as [|r rs IH]; intros s Hs; [done|].
  apply IH. by apply reachable_handle.
Qed.

(** ** The scenarios *)

Lemma demo_state_reachable : reachable demo_state.
Proof. apply reachable_run, reachable_init. Qed.

Lemma demo_state_queue :
  queue demo_state =
    [demo_row 1 2 "general" completed 100 (Some 104) 1;
     demo_row 2 3 "general" completed 100 (Some 105) 1;
     demo_row 3 4 "general" waiting 101 None 1;
     demo_row 4 5 "vip" waiting 102 None 2;
     demo_row 5 6 "general" waiting 103 None 3].
Proof. vm_compute. reflexivity. Qed.

Lemma two_waiting_queue :
  queue two_waiting = [demo_row 1 2 "general" waiting 100 None 1;
                       demo_row 2 3 "general" waiting 100 None 2].
Proof. vm_compute. reflexivity. Qed.

(** * The properties of the specification *)

(** ** Positions and ticket numbers *)

(** C1. Position contiguity: in every state the program can reach (that
    is, after any sequence of Join, CallNext and Leave requests, whether
    they succeed or fail), the positions of the waiting tickets are
    exactly 1..N with N the number of waiting tickets, each once, and a
    ticket that joined strictly earlier has a strictly smaller
    position. *)
Theorem positions_contiguous_after_requests s :
  reachable s →
  let w := waiting_rows (queue s) in
  Queue.position <$> w ≡ₚ Some <$> seq 1 (length w) ∧
  ∀ t1 t2, t1 ∈ w → t2 ∈ w → Queue.join_time t1 < Queue.join_time t2 →
    ∃ p1 p2, Queue.position t1 = Some p1 ∧ Queue.position t2 = Some p2 ∧
             (p1 < p2)%nat.
Proof.
  intros [_ [Hperm Hord]]%reachable_inv. by split.
Qed.

Lemma positions_contiguous_witness :
  let w := waiting_rows (queue demo_state) in
  length w = 3%nat ∧
  Queue.position <$> w ≡ₚ Some <$> seq 1 (length w) ∧
  ∀ t1 t2, t1 ∈ w → t2 ∈ w → Queue.join_time t1 < Queue.join_time t2 →
    ∃ p1 p2, Queue.position t1 = Some p1 ∧ Queue.position t2 = Some p2 ∧
             (p1 < p2)%nat.
Proof.
  split; [by rewrite demo_state_queue|].
  exact (positions_contiguous_after_requests demo_state demo_state_reachable).
Defined.



(** ** Stats *)

(** [queue_stats] counts the rows that are [completed] and whose
    [completed_time] is today, but [call_next] stamps [called_time] and
    leaves [completed_time] NULL: the count is 0 in every reachable
    state. *)
Lemma queue_stats_completed_today_zero now s :
  reachable s →
  ∃ waiting_n total_users, queue_stats now s = (s, Stats waiting_n 0 total_users).
Proof.
  intros [[_ _ _ _ _ Hct] _]%reachable_inv. unfold queue_stats. cbn zeta.
  eexists _, _. do 2 f_equal.
  induction Hct as [|t q Ht _ IH]; [done|].
  rewrite filter_cons. destruct (decide _) as [[Hst Htime]|_]; [|done].
  rewrite Ht in Htime by (by rewrite Hst). done.
Qed.

(** C3. Stats: the scenario state holds 3 waiting tickets and 2 tickets
    that CallNext completed today (clock 104 and 105, read at 106), and
    [queue_stats] reports 3 waiting but 0 completed today; the database
    is returned as it was. *)
Theorem queue_stats_misses_called_tickets :
  length (filter (λ t, Queue.status t = waiting) (queue demo_state)) = 3%nat ∧
  length (filter (λ t, Queue.status t = completed ∧
                       date <$> Queue.called_time t = Some (date 106))
                 (queue demo_state)) = 2%nat ∧
  queue_stats 106 demo_state = (demo_state, Stats 3 0 5).
Proof.
  split_and!; [by rewrite demo_state_queue..|].
  unfold queue_stats. cbn zeta. rewrite demo_state_queue. by vm_compute.
Qed.

(** ** Join with an unknown user, and what CallNext makes of it *)

(** Nothing in [join_queue] reads the [users] table. *)
Lemma join_queue_ignores_users now u qt us us' q :
  (join_queue now u qt (Db us q)).2 = (join_queue now u qt (Db us' q)).2 ∧
  queue (join_queue now u qt (Db us q)).1 = queue (join_queue now u qt (Db us' q)).1.
Proof.
  unfold join_queue, insert_queue. cbn [queue users foreign_keys andb].
  destruct u as [[|uid|uid]|]; try done.
  all: destruct (filter _ q); [|done].
  all: case_bool_decide; [done|].
  all: by destruct (filter _ (update_queue_positions _)).
Qed.

(** C4. Join with an unknown user: no user has id 99, yet the Join
    succeeds, a ticket is stored for user 99 and TICKET-001 is
    returned. *)
Theorem join_queue_accepts_unknown_user :
  demo_users !! 99 = None ∧
  join_queue 100 (Some 99) None (Db demo_users []) =
    (Db demo_users [demo_row 1 99 "general" waiting 100 None 1],
     Joined "TICKET-001" (Some 1%nat) "general").
Proof. split; by vm_compute. Qed.

(** C5. CallNext with a waiting ticket whose user does not exist: the
    join with [users] drops that ticket, so the administrator is handed
    Bob's TICKET-002 (position 2, joined at 101) although TICKET-001
    (position 1, joined at 100) is waiting; TICKET-001 stays waiting at
    position 1, and the next CallNext reports an empty queue although the
    waiting set is not empty. *)
Theorem call_next_skips_orphan_ticket :
  queue orphan_first =
    [demo_row 1 99 "general" waiting 100 None 1;
     demo_row 2 2 "general" waiting 101 None 2] ∧
  (call_next 102 (Some 1) orphan_first).2 = Called "TICKET-002" "Bob" ∧
  queue (call_next 102 (Some 1) orphan_first).1 =
    [demo_row 1 99 "general" waiting 100 None 1;
     demo_row 2 2 "general" completed 101 (Some 102) 2] ∧
  (call_next 103 (Some 1) (call_next 102 (Some 1) orphan_first).1).2 = EmptyQueue.
Proof. split_and!; by vm_compute. Qed.

(** What [call_next] does when every waiting ticket belongs to a stored
    user (which [join_queue] does not ensure): first in, first out. *)
Lemma call_next_fifo now a adm s :
  reachable s →
  users s !! a = Some adm → Users.role adm = "admin" →
  (∀ t, t ∈ waiting_rows (queue s) → is_Some (users s !! Queue.user_id t)) →
  waiting_rows (queue s) ≠ [] →
  ∃ t u q',
    t ∈ waiting_rows (queue s) ∧ Queue.position t = Some 1%nat ∧
    (∀ t', t' ∈ waiting_rows (queue s) → Queue.join_time t ≤ Queue.join_time t') ∧
    users s !! Queue.user_id t = Some u ∧
    call_next now (Some a) s =
      (Db (users s) q', Called (Queue.ticket_number t) (Users.full_name u)) ∧
    positions_ok q' ∧ length q' = length (queue s) ∧
    ∀ k t0, queue s !! k = Some t0 →
      ∃ t0', q' !! k = Some t0' ∧ same_ticket t0 t0' ∧
        Queue.completed_time t0' = Queue.completed_time t0 ∧
        if decide (t0 = t)
        then Queue.status t0' = completed ∧ Queue.called_time t0' = Some now
        else Queue.status t0' = Queue.status t0 ∧
             Queue.called_time t0' = Queue.called_time t0.
Proof.
  intros Hs Ha Hrole Hall Hne.
  destruct (reachable_inv _ Hs) as [Hq Hpos].
  pose proof (queue_inv_NoDup _ Hq) as Hnd.
  pose proof (waiting_with_user_fst s Hall) as Hfst.
  unfold call_next. cbn zeta. cbn [mbind option_bind]. rewrite Ha.
  rewrite bool_decide_false by (by intros []).
  set (le := λ r1 r2 : Queue.row * Users.row,
               position_le (Queue.position r1.1) (Queue.position r2.1)).
  destruct (order_by le (waiting_with_user s)) as [|next rest] eqn:Hsort.
  { exfalso. apply Hne. rewrite <-Hfst.
    apply (f_equal length) in Hsort. rewrite order_by_length in Hsort.
    by destruct (waiting_with_user s). }
  pose proof (order_by_elem_of _ _ _ _ Hsort) as Hnext.
  assert (∀ r, r ∈ waiting_with_user s → le next r = true ∨ r = next) as Hmin.
  { intros r Hr. eapply (order_by_head le); [| |exact Hsort|exact Hr].
    - intros x y. apply position_le_total.
    - intros x y z. apply position_le_trans. }
  apply waiting_with_user_elem_of in Hnext as (Hin & Hw & Hu).
  assert (next.1 ∈ waiting_rows (queue s)) as Hnw by by apply list_elem_of_filter.
  destruct (positions_ok_lower_bound _ _ Hpos Hnw) as (p & Hp & Hp1).
  assert (p = 1%nat) as ->.
  { assert (Some 1%nat ∈ Queue.position <$> waiting_rows (queue s)) as Hone.
    { rewrite (positions_contiguous _ Hpos).
      apply list_elem_of_fmap_2, elem_of_seq. lia. }
    apply list_elem_of_fmap in Hone as (t1 & Ht1 & Hin1).
    rewrite <-Hfst in Hin1. apply list_elem_of_fmap in Hin1 as (r1 & -> & Hr1).
    destruct (Hmin r1 Hr1) as [Hle| ->]; [|congruence].
    unfold le in Hle. rewrite Hp, <-Ht1 in Hle. cbn in Hle.
    apply bool_decide_eq_true in Hle. lia. }
  exists next.1, next.2. eexists. split_and!; [done|done| |done|done| | |].
  - intros t' Ht'. destruct (decide (Queue.join_time next.1 ≤ Queue.join_time t'))
      as [|Hlt]; [done|exfalso].
    destruct (positions_ordered _ Hpos t' next.1) as (p1 & p2 & Hp1' & Hp2' & Hlt');
      [done|done|lia|].
    destruct (positions_ok_lower_bound _ _ Hpos Ht') as (p' & Hp' & ?).
    simplify_eq. lia.
  - apply update_queue_positions_ok, queue_inv_NoDup, queue_inv_retires; [|done].
    by apply retires_set_completed.
  - rewrite update_queue_positions_spec, !length_fmap; [done|].
    apply queue_inv_NoDup, queue_inv_retires; [|done].
    by apply retires_set_completed.
  - intros k t0 Hk. rewrite update_queue_positions_spec.
    2:{ apply queue_inv_NoDup, queue_inv_retires; [|done].
        by apply retires_set_completed. }
    rewrite !list_lookup_fmap, Hk. eexists. split; [done|].
    match goal with |- context [assign ?st ?ids ?r] =>
      destruct (assign_frame st ids r) as (Hid&Hu'&Htn&Hqt&Hst&Hjt&Hcl&Hco) end.
    unfold same_ticket. rewrite Hid, Hu', Htn, Hqt, Hst, Hjt, Hcl, Hco.
    destruct (decide (Queue.id t0 = Queue.id next.1)) as [Heq|Hneq].
    + rewrite decide_True; [done|].
      apply (fmap_id_inj Queue.id (queue s)); [done| |done|done].
      by eapply list_elem_of_lookup_2.
    + rewrite decide_False by congruence. done.
Qed.

(** ** Join *)

(** The query of [join_queue] for rows of a waiting user finds that
    user's one waiting row. *)
Lemma waiting_row_of_user q t :
  queue_inv q → t ∈ q → Queue.status t = waiting →
  Queue.user_id t ≠ 0 ∧
  ∃ rest, filter (λ t', Queue.user_id t' = Queue.user_id t ∧
                        Queue.status t' = waiting) q = t :: rest.
Proof.
  intros [_ _ _ Huid Hone _] Ht Hw.
  rewrite Forall_forall in Huid. split; [by apply Huid|].
  assert (t ∈ filter (λ t', Queue.user_id t' = Queue.user_id t ∧
                            Queue.status t' = waiting) q) as Hin.
  { by apply list_elem_of_filter. }
  destruct (filter _ q) as [|existing rest] eqn:Hex.
  { by apply elem_of_nil in Hin. }
  assert (existing ∈ q ∧ Queue.user_id existing = Queue.user_id t ∧
          Queue.status existing = waiting) as (He & Heu & Hew).
  { assert (existing ∈ existing :: rest) as Hhd by left.
    rewrite <-Hex in Hhd. by apply list_elem_of_filter in Hhd as [[? ?] ?]. }
  exists rest. f_equal.
  apply (fmap_id_inj Queue.user_id (waiting_rows q)); [done| | |done];
    by apply list_elem_of_filter.
Qed.

(** C6. Idempotent duplicate join: in every reachable state, a Join by
    the user of a waiting ticket fails with AlreadyQueued, reports that
    ticket's stored number and position, and leaves the database as it
    was (no ticket created, none modified). *)
Theorem join_queue_already_queued now qt s t :
  reachable s → t ∈ queue s → Queue.status t = waiting →
  join_queue now (Some (Queue.user_id t)) qt s =
    (s, AlreadyQueued (Queue.ticket_number t) (Queue.position t)).
Proof.
  intros Hs Ht Hw. destruct (reachable_inv s Hs) as [Hq _].
  destruct (waiting_row_of_user _ _ Hq Ht Hw) as [Huid [rest Hex]].
  destruct (join_queue_outcome now (Queue.user_id t) qt s Huid)
    as [existing rest' Hex'|Hex' _|q1 r rest' Hex' _ _ _];
    rewrite Hex in Hex'; [|done..].
  by injection Hex' as <- <-.
Qed.

(** Dan (user 4) still waits in the scenario with TICKET-003 at
    position 1; joining again reports just that. *)
Lemma join_queue_already_queued_witness :
  join_queue 300 (Some 4) (Some "vip") demo_state =
    (demo_state, AlreadyQueued "TICKET-003" (Some 1%nat)).
Proof.
  apply (join_queue_already_queued 300 (Some "vip") demo_state
           (demo_row 3 4 "general" waiting 101 None 1));
    [exact demo_state_reachable | rewrite demo_state_queue; set_solver | done].
Defined.

(** A successful Join followed at once by a Join of the same user: the
    second one reports the number and the position the first one
    returned. *)
Lemma join_queue_twice now now' u qt qt' s s1 tn pos qt1 :
  reachable s →
  join_queue now u qt s = (s1, Joined tn pos qt1) →
  join_queue now' u qt' s1 = (s1, AlreadyQueued tn pos).
Proof.
  intros Hs Hjoin.
  assert (reachable s1) as Hs1.
  { replace s1 with (handle (Join now u qt) s).1 by (cbn; by rewrite Hjoin).
    by apply reachable_handle. }
  destruct u as [uid|]; [|done].
  destruct (decide (uid = 0)) as [->|Huid]; [done|].
  destruct (join_queue_outcome now uid qt s Huid)
    as [existing rest Hex|Hex _|q1 r rest Hex Hfresh Hq1 Hf]; try done.
  injection Hjoin as <- <- <- <-.
  assert (r ∈ r :: rest) as Hr by left.
  rewrite <-Hf in Hr. apply list_elem_of_filter in Hr as [Htn Hr].
  assert (∃ r0, r0 ∈ update_queue_positions q1 ∧ Queue.user_id r0 = uid ∧
                Queue.ticket_number r0 = generate_ticket_number now (queue s) ∧
                Queue.status r0 = waiting) as (r0 & Hr0 & Hu0 & Htn0 & Hw0).
  { assert (core (Queue.mk (next_rowid (queue s)) uid
              (generate_ticket_number now (queue s)) (default "general" qt)
              waiting now None None None) ∈ core <$> update_queue_positions q1)
      as (r0 & Hc & Hr0)%list_elem_of_fmap.
    { rewrite update_queue_positions_core, Hq1, fmap_app.
      apply elem_of_app. right. cbn. left. }
    exists r0. unfold core in Hc. by simplify_eq/=. }
  assert (r = r0) as ->.
  { destruct (reachable_inv _ Hs1) as [[_ Hlab _ _ _ _] _]. cbn [queue] in Hlab.
    apply (fmap_id_inj Queue.ticket_number (update_queue_positions q1));
      [|done|done|congruence].
    rewrite Hlab. apply NoDup_fmap_2_strong; [|apply NoDup_seq].
    intros ? ? _ _. apply ticket_label_inj. }
  destruct (reachable_inv _ Hs1) as [Hq1' _].
  destruct (waiting_row_of_user _ _ Hq1' Hr0 Hw0) as [_ [rest0 Hex0]].
  rewrite Hu0 in Hex0. cbn [queue] in Hex0.
  destruct (join_queue_outcome now' uid qt'
              (Db (users s) (update_queue_positions q1)) Huid)
    as [existing rest' Hex'|Hex' _|q1' r' rest' Hex' _ _ _];
    cbn [queue] in Hex'; rewrite Hex0 in Hex'; [|done..].
  injection Hex' as <- <-. by rewrite Htn0.
Qed.



(** ** Leave *)



(** ** Status transitions and failed requests *)

(** C9. Monotone status: along every sequence of requests from a
    reachable state, a stored ticket stays stored (same row, same id) and
    its status either is what it was or has moved from waiting to
    completed or cancelled; so a completed or cancelled ticket keeps its
    status for ever and no ticket returns to waiting. *)
Theorem status_monotone rs s k t :
  reachable s → queue s !! k = Some t →
  ∃ t', queue (run rs s) !! k = Some t' ∧ Queue.id t' = Queue.id t ∧
    (Queue.status t' = Queue.status t ∨
     Queue.status t = waiting ∧
       (Queue.status t' = completed ∨ Queue.status t' = cancelled)).
Proof.
  revert s t. induction rs as [|r rs IH]; intros s t Hs Hk.
  { exists t. auto. }
  destruct (reachable_inv s Hs) as [Hq _].
  destruct (handle_effect r s) as [now He]; [by apply queue_inv_NoDup|].
  destruct (effect_status _ _ _ _ _ He Hq Hk) as (t1 & Hk1 & Hid1 & Hst1).
  destruct (IH (handle r s).1 t1) as (t' & Hk' & Hid' & Hst');
    [by apply reachable_handle | done |].
  exists t'. split; [done|]. split; [congruence|].
  destruct Hst1 as [?|[? [?|?]]], Hst' as [?|[? [?|?]]];
    try congruence; try (left; congruence); right; split; try congruence;
    (left; congruence) || (right; congruence).
Qed.

(** A called ticket stays completed whatever is requested next: here its
    owner joins again and tries to leave, and the administrator calls. *)
Lemma status_monotone_witness :
  let t := demo_row 1 2 "general" completed 100 (Some 104) 1 in
  let rs := [Join 200 (Some 2) None; Leave 201 (Some 2); CallNext 202 (Some 1)] in
  ∃ t', queue (run rs demo_state) !! 0%nat = Some t' ∧
    Queue.id t' = Queue.id t ∧
    (Queue.status t' = Queue.status t ∨
     Queue.status t = waiting ∧
       (Queue.status t' = completed ∨ Queue.status t' = cancelled)).
Proof.
  apply (status_monotone _ demo_state 0);
    [exact demo_state_reachable | by rewrite demo_state_queue].
Defined.




(** * Further properties of the code *)

(** ** The ticket store *)

(** X1. Single active ticket: in every reachable state every user id
    has at most one waiting ticket. *)
Theorem single_waiting_ticket_per_user s uid :
  reachable s →
  (length (filter (λ t, Queue.user_id t = uid ∧ Queue.status t = waiting)
                  (queue s)) ≤ 1)%nat.
Proof.
  intros [Hq _]%reachable_inv. pose proof (inv_single _ Hq) as Hone.
  rewrite <-(list_filter_filter_l _ (λ t, Queue.status t = waiting))
    by by intros ? [? ?].
  fold (waiting_rows (queue s)).
  assert (NoDup (Queue.user_id <$>
            filter (λ t, Queue.user_id t = uid ∧ Queue.status t = waiting)
                   (waiting_rows (queue s)))) as Hnd.
  { eapply sublist_NoDup; [exact Hone|]. apply fmap_sublist, sublist_filter. }
  destruct (filter _ (waiting_rows (queue s))) as [|a [|b rest]] eqn:Hf;
    cbn; [lia..|exfalso].
  assert (a ∈ a :: b :: rest) as Ha by left.
  assert (b ∈ a :: b :: rest) as Hb by (right; left).
  rewrite <-Hf in Ha, Hb.
  apply list_elem_of_filter in Ha as [[Ha _] _], Hb as [[Hb _] _].
  cbn in Hnd. rewrite Ha, Hb in Hnd.
  apply NoDup_cons in Hnd as [Hnd _]. apply Hnd. left.
Qed.

Lemma single_waiting_ticket_witness :
  length (filter (λ t, Queue.user_id t = 5 ∧ Queue.status t = waiting)
                 (queue demo_state)) = 1%nat ∧
  (length (filter (λ t, Queue.user_id t = 5%Z ∧ Queue.status t = waiting)
                  (queue demo_state)) ≤ 1)%nat.
Proof.
  split; [by rewrite demo_state_queue|].
  exact (single_waiting_ticket_per_user demo_state 5 demo_state_reachable).
Defined.

Lemma update_queue_positions_length q :
  length (update_queue_positions q) = length q.
Proof.
  rewrite <-(length_fmap core (update_queue_positions q)),
    update_queue_positions_core. apply length_fmap.
Qed.

(** X2. Append-only store: whatever the database, a request leaves the
    [users] table alone and never removes a ticket; the number of
    tickets grows by one exactly when the response is a successful
    Join. *)
Theorem requests_only_append r s :
  users (handle r s).1 = users s ∧
  length (queue (handle r s).1) = (length (queue s) + created (handle r s).2)%nat.
Proof.
  destruct r as [now u qt|now a|now u]; cbn [handle].
  - destruct u as [uid|]; [|by rewrite Nat.add_0_r].
    destruct (decide (uid = 0)) as [->|Huid]; [by rewrite Nat.add_0_r|].
    destruct (join_queue_outcome now uid qt s Huid)
      as [existing rest _|_ _|q1 r rest _ _ Hq1 _]; cbn;
      rewrite ?Nat.add_0_r; try done.
    split; [done|]. by rewrite update_queue_positions_length, Hq1, length_app.
  - unfold call_next. cbn zeta.
    destruct (a ≫= _) as [adm|]; [|by rewrite Nat.add_0_r].
    destruct (bool_decide _); [by rewrite Nat.add_0_r|].
    destruct (order_by _ _); cbn; rewrite Nat.add_0_r; [done|].
    split; [done|]. by rewrite update_queue_positions_length, length_fmap.
  - unfold leave_queue. destruct u as [uid|]; [|by rewrite Nat.add_0_r].
    cbn zeta. destruct (decide _); cbn; rewrite Nat.add_0_r; [done|].
    split; [done|]. by rewrite update_queue_positions_length, length_fmap.
Qed.

(** ** Numbering by count: when Join is refused *)

(** The candidate number is taken as soon as some stored ticket is not
    counted, that is, is not waiting or was not created today. *)
Lemma ticket_number_taken now q :
  queue_inv q → length (waiting_today now q) ≠ length q →
  generate_ticket_number now q ∈ Queue.ticket_number <$> q.
Proof.
  intros Hq Hne.
  pose proof (length_filter
    (λ t, date (Queue.join_time t) = date now ∧ Queue.status t = waiting) q) as Hle.
  fold (waiting_today now q) in Hle.
  unfold generate_ticket_number. rewrite (inv_labels q Hq).
  apply list_elem_of_fmap_2, elem_of_seq. lia.
Qed.

Lemma join_queue_refused now u qt s :
  queue_inv (queue s) → length (waiting_today now (queue s)) ≠ length (queue s) →
  success (join_queue now u qt s).2 = false.
Proof.
  intros Hq Hne. pose proof (ticket_number_taken now _ Hq Hne) as Htaken.
  destruct u as [uid|]; [|done].
  destruct (decide (uid = 0)) as [->|Huid]; [done|].
  by destruct (join_queue_outcome now uid qt s Huid).
Qed.

Lemma join_queue_integrity_error now uid qt s :
  queue_inv (queue s) → length (waiting_today now (queue s)) ≠ length (queue s) →
  uid ≠ 0 →
  filter (λ t, Queue.user_id t = uid ∧ Queue.status t = waiting) (queue s) = [] →
  join_queue now (Some uid) qt s = (s, Internal IntegrityError).
Proof.
  intros Hq Hne Huid Hex. pose proof (ticket_number_taken now _ Hq Hne) as Htaken.
  destruct (join_queue_outcome now uid qt s Huid)
    as [existing rest Hex'|_ _|q1 r rest _ Hfresh _ _]; [|done..].
  by rewrite Hex in Hex'.
Qed.

Lemma not_counted_today now q t :
  t ∈ q → Queue.status t ≠ waiting ∨ date (Queue.join_time t) ≠ date now →
  length (waiting_today now q) ≠ length q.
Proof.
  intros Ht Hno.
  pose proof (length_filter_lt
    (λ t, date (Queue.join_time t) = date now ∧ Queue.status t = waiting) q t Ht)
    as Hlt.
  fold (waiting_today now q) in Hlt.
  assert (length (waiting_today now q) < length q)%nat; [|lia].
  apply Hlt. intros [? ?]. by destruct Hno.
Qed.

(** A retired row stays retired along any request sequence. *)
Lemma run_keeps_retired rs s k t :
  reachable s → queue s !! k = Some t → Queue.status t ≠ waiting →
  ∃ t', queue (run rs s) !! k = Some t' ∧ Queue.status t' ≠ waiting.
Proof.
  revert s t. induction rs as [|r rs IH]; intros s t Hs Hk Hst.
  { by exists t. }
  destruct (reachable_inv s Hs) as [Hq _].
  destruct (handle_effect r s) as [now He]; [by apply queue_inv_NoDup|].
  destruct (effect_status _ _ _ _ _ He Hq Hk) as (t1 & Hk1 & _ & Hst1).
  apply (IH (handle r s).1 t1); [by apply reachable_handle | done |].
  destruct Hst1 as [->|[? _]]; done.
Qed.

(** X3. Once a ticket has been completed or cancelled, no Join succeeds
    any more, whoever asks and whatever happens in between: the number
    computed from the count of waiting tickets is already taken, and the
    insert is refused. *)
Theorem no_join_after_a_ticket_retired rs now u qt s t :
  reachable s → t ∈ queue s → Queue.status t ≠ waiting →
  success (join_queue now u qt (run rs s)).2 = false ∧
  (join_queue now u qt (run rs s)).1 = run rs s.
Proof.
  intros Hs [k Hk]%list_elem_of_lookup_1 Hst.
  destruct (run_keeps_retired rs s k t Hs Hk Hst) as (t' & Hk' & Hst').
  assert (reachable (run rs s)) as Hs' by by apply reachable_run.
  destruct (reachable_inv _ Hs') as [Hq _].
  assert (success (join_queue now u qt (run rs s)).2 = false) as Hfail.
  { apply join_queue_refused; [done|].
    apply (not_counted_today now _ t'); [by eapply list_elem_of_lookup_2|by left]. }
  split; [done|].
  destruct u as [uid|]; [|done].
  destruct (decide (uid = 0)) as [->|Huid]; [done|].
  destruct (join_queue_outcome now uid qt (run rs s) Huid); done.
Qed.

(** Fay (user 6) waits, Bob's ticket was called: a newcomer (user 7) is
    refused, also after Fay has left. *)
Lemma no_join_after_a_ticket_retired_witness :
  let rs := [Leave 300 (Some 6)] in
  success (join_queue 301 (Some 7) None (run rs demo_state)).2 = false ∧
  (join_queue 301 (Some 7) None (run rs demo_state)).1 = run rs demo_state.
Proof.
  apply (no_join_after_a_ticket_retired _ 301 (Some 7) None demo_state
           (demo_row 1 2 "general" completed 100 (Some 104) 1));
    [exact demo_state_reachable | rewrite demo_state_queue; left | done].
Defined.

(** X4. Tickets of another day block Join as well: when a stored ticket
    was created on a day other than today, every Join fails and changes
    nothing. *)
Theorem no_join_on_another_day now u qt s t :
  reachable s → t ∈ queue s → date (Queue.join_time t) ≠ date now →
  success (join_queue now u qt s).2 = false ∧ (join_queue now u qt s).1 = s.
Proof.
  intros Hs Ht Hday. destruct (reachable_inv _ Hs) as [Hq _].
  assert (success (join_queue now u qt s).2 = false) as Hfail.
  { apply join_queue_refused; [done|].
    apply (not_counted_today now _ t); [done|by right]. }
  split; [done|].
  destruct u as [uid|]; [|done].
  destruct (decide (uid = 0)) as [->|Huid]; [done|].
  destruct (join_queue_outcome now uid qt s Huid); done.
Qed.

(** Two tickets wait since day 0; a Join on day 1 is refused. *)
Lemma no_join_on_another_day_witness :
  success (join_queue 86400 (Some 4) None two_waiting).2 = false ∧
  (join_queue 86400 (Some 4) None two_waiting).1 = two_waiting.
Proof.
  apply (no_join_on_another_day 86400 (Some 4) None two_waiting
           (demo_row 1 2 "general" waiting 100 None 1));
    [apply reachable_run, reachable_init | rewrite two_waiting_queue; left | done].
Defined.

Lemma filter_none {A} (P : A → Prop) `{!∀ x, Decision (P x)} (l : list A) :
  (∀ x, x ∈ l → ¬ P x) → filter P l = [].
Proof.
  induction l as [|x l IH]; intros Hall; [done|].
  rewrite filter_cons, decide_False by (apply Hall; left).
  apply IH. intros y Hy. apply Hall. by right.
Qed.

(** X5. A user who has left cannot come back: after a successful Leave
    the same user's Join is refused with an integrity error (the left
    ticket is cancelled, so the number computed from the count of waiting
    tickets is taken), and the database stays as the Leave left it. *)
Theorem no_rejoin_after_leave now now' uid qt s s' :
  reachable s → uid ≠ 0 →
  leave_queue now (Some uid) s = (s', LeftQueue) →
  join_queue now' (Some uid) qt s' = (s', Internal IntegrityError).
Proof.
  intros Hs Huid Hleave.
  assert (reachable s') as Hs'.
  { replace s' with (handle (Leave now (Some uid)) s).1
      by (cbn [handle]; by rewrite Hleave).
    by apply reachable_handle. }
  destruct (reachable_inv _ Hs) as [Hq _], (reachable_inv _ Hs') as [Hq' _].
  revert Hleave Hq'. unfold leave_queue. cbn zeta.
  destruct (decide _) as [|Hne]; [done|]. intros [= <-] Hq'.
  match goal with |- context [?f <$> queue s] => set (g := f) in * end.
  assert (NoDup (Queue.id <$> (g <$> queue s))) as Hnd.
  { rewrite <-list_fmap_compose. erewrite list_fmap_ext; [by apply queue_inv_NoDup|].
    intros _ t _. unfold g. cbn. by destruct (decide _). }
  cbn [queue] in Hq'.
  apply join_queue_integrity_error; cbn [queue]; [done| |done|].
  - destruct (filter _ (queue s)) as [|t0 rest] eqn:Hf; [done|].
    assert (t0 ∈ t0 :: rest) as Ht0 by left.
    rewrite <-Hf in Ht0. apply list_elem_of_filter in Ht0 as [Hhit Ht0].
    apply (not_counted_today now' _ (assign 1 (waiting_users (g <$> queue s)) (g t0))).
    + rewrite update_queue_positions_spec by done.
      by apply list_elem_of_fmap_2, list_elem_of_fmap_2.
    + left. destruct (assign_frame 1 (waiting_users (g <$> queue s)) (g t0))
        as (_&_&_&_&->&_).
      unfold g. by rewrite decide_True.
  - apply filter_none. rewrite update_queue_positions_spec by done.
    intros ? (? & -> & (t & -> & Ht)%list_elem_of_fmap)%list_elem_of_fmap.
    destruct (assign_frame 1 (waiting_users (g <$> queue s)) (g t))
      as (_&->&_&_&->&_).
    unfold g. destruct (decide _) as [|Hno]; cbn; [by intros [_ ?]|done].
Qed.

(** Dan (user 4) leaves the scenario queue and tries to join again. *)
Lemma no_rejoin_after_leave_witness :
  let s' := (leave_queue 300 (Some 4) demo_state).1 in
  join_queue 301 (Some 4) None s' = (s', Internal IntegrityError).
Proof.
  assert (4 ≠ 0) as H4 by lia.
  apply (no_rejoin_after_leave 300 301 4 None demo_state _ demo_state_reachable H4).
  by vm_compute.
Defined.

(** ** Recomputing the positions *)

Lemma insert_sorted_fmap {A} (le : A → A → bool) (g : A → A) x l :
  (∀ x y, le (g x) (g y) = le x y) →
  insert_sorted le (g x) (g <$> l) = g <$> insert_sorted le x l.
Proof.
  intros Hg. induction l as [|y l IH]; [done|].
  cbn. rewrite Hg. destruct (le x y); [done|]. cbn. by rewrite <-IH.
Qed.

Lemma order_by_fmap {A} (le : A → A → bool) (g : A → A) l :
  (∀ x y, le (g x) (g y) = le x y) →
  order_by le (g <$> l) = g <$> order_by le l.
Proof.
  intros Hg. induction l as [|x l IH]; [done|].
  cbn. fold (order_by le (g <$> l)). fold (order_by le l).
  by rewrite IH, insert_sorted_fmap.
Qed.

(** The ids fetched by the update loop do not depend on the stored
    positions. *)
Lemma waiting_users_assign start ids q :
  waiting_users (assign start ids <$> q) = waiting_users q.
Proof.
  rewrite !waiting_users_eq, waiting_rows_assign, order_by_fmap.
  - rewrite <-list_fmap_compose. apply list_fmap_ext. intros _ t _. cbn.
    by destruct (assign_frame start ids t) as (->&_).
  - intros x y. unfold by_join_time.
    destruct (assign_frame start ids x) as (_&_&_&_&_&->&_).
    by destruct (assign_frame start ids y) as (_&_&_&_&_&->&_).
Qed.

Lemma assign_assign start ids t :
  assign start ids (assign start ids t) = assign start ids t.
Proof.
  unfold assign at 1. destruct (assign_frame start ids t) as (->&_).
  unfold assign. by destruct (rank_of (Queue.id t) ids).
Qed.

Lemma update_queue_positions_assign q :
  NoDup (Queue.id <$> q) →
  update_queue_positions (assign 1 (waiting_users q) <$> q)
  = assign 1 (waiting_users q) <$> q.
Proof.
  intros Hnd. rewrite update_queue_positions_spec.
  - rewrite waiting_users_assign, <-list_fmap_compose.
    apply list_fmap_ext. intros _ t _. apply assign_assign.
  - rewrite <-list_fmap_compose. erewrite list_fmap_ext; [done|].
    intros _ t _. cbn. by destruct (assign_frame 1 (waiting_users q) t) as (->&_).
Qed.

(** X6. The stored positions are always up to date: in every reachable
    state, running [update_queue_positions] once more changes no row. *)
Theorem positions_up_to_date s :
  reachable s → update_queue_positions (queue s) = queue s.
Proof.
  induction 1 as [us|r s Hs IH|us s _ IH]; cbn [queue]; [done| |done].
  destruct (reachable_inv _ Hs) as [Hq _].
  destruct (handle_effect r s) as [now He]; [by apply queue_inv_NoDup|].
  destruct He as [|uid qt q1 Huid Hex Hins|g Hg]; cbn [queue]; [done| |].
  - assert (NoDup (Queue.id <$> q1)) as Hnd
      by (eapply queue_inv_NoDup, queue_inv_insert; eauto).
    rewrite (update_queue_positions_spec q1) by done.
    by apply update_queue_positions_assign.
  - assert (NoDup (Queue.id <$> (g <$> queue s))) as Hnd
      by by apply queue_inv_NoDup, queue_inv_retires.
    rewrite (update_queue_positions_spec (g <$> queue s)) by done.
    by apply update_queue_positions_assign.
Qed.

Lemma positions_up_to_date_witness :
  update_queue_positions (queue demo_state) = queue demo_state.
Proof. exact (positions_up_to_date demo_state demo_state_reachable). Defined.

(** X7. [update_queue_positions] rewrites positions of waiting rows and
    nothing else: in a table with distinct ids every row stays at its
    place with all other columns, a row that is not waiting is not
    touched at all (it keeps the position it had when it was retired),
    and a waiting row gets a position between 1 and the number of
    waiting rows. *)
Theorem update_queue_positions_frame q k t :
  NoDup (Queue.id <$> q) → q !! k = Some t →
  ∃ t', update_queue_positions q !! k = Some t' ∧
    same_ticket t t' ∧ Queue.status t' = Queue.status t ∧
    Queue.called_time t' = Queue.called_time t ∧
    Queue.completed_time t' = Queue.completed_time t ∧
    (Queue.status t ≠ waiting → t' = t) ∧
    (Queue.status t = waiting →
     ∃ p, Queue.position t' = Some p ∧ (1 ≤ p ≤ length (waiting_rows q))%nat).
Proof.
  intros Hnd Hk. pose proof (update_queue_positions_ok q Hnd) as Hok.
  revert Hok. rewrite update_queue_positions_spec by done. intros Hok.
  rewrite list_lookup_fmap, Hk. eexists. split; [done|].
  destruct (assign_frame 1 (waiting_users q) t) as (Hid&Hu&Htn&Hqt&Hst&Hjt&Hcl&Hco).
  unfold same_ticket. split_and!; try done.
  - intros Hnw. unfold assign. rewrite rank_of_None; [done|].
    rewrite waiting_users_eq, (order_by_perm by_join_time).
    intros (w & Hidw & Hw)%list_elem_of_fmap.
    apply list_elem_of_filter in Hw as [Hws Hw].
    assert (t = w) as ->; [|done].
    apply (fmap_id_inj Queue.id q); [done| |done|done].
    by eapply list_elem_of_lookup_2.
  - intros Hw.
    destruct (positions_ok_lower_bound _ (assign 1 (waiting_users q) t) Hok)
      as (p & Hp & Hbound).
    { rewrite waiting_rows_assign. apply list_elem_of_fmap_2.
      apply list_elem_of_filter. split; [done|]. by eapply list_elem_of_lookup_2. }
    exists p. split; [done|].
    by rewrite waiting_rows_assign, length_fmap in Hbound.
Qed.

(** A table whose stored positions are stale: the completed row keeps
    its 7, the waiting rows are renumbered. *)
Lemma update_queue_positions_frame_witness :
  let q := [demo_row 1 2 "general" completed 100 (Some 104) 7;
            demo_row 2 3 "general" waiting 100 None 9;
            demo_row 3 4 "general" waiting 101 None 9] in
  ∃ t', update_queue_positions q !! 0%nat = Some t' ∧
    same_ticket (demo_row 1 2 "general" completed 100 (Some 104) 7) t' ∧
    Queue.status t' = completed ∧
    Queue.called_time t' = Some 104 ∧
    Queue.completed_time t' = None ∧
    (completed ≠ waiting → t' = demo_row 1 2 "general" completed 100 (Some 104) 7) ∧
    (completed = waiting →
     ∃ p, Queue.position t' = Some p ∧ (1 ≤ p ≤ length (waiting_rows q))%nat).
Proof.
  apply (update_queue_positions_frame _ 0
           (demo_row 1 2 "general" completed 100 (Some 104) 7));
    [change (NoDup (seq 1 3)); apply NoDup_seq | done].
Defined.

(** ** Join: the new row *)

Lemma insert_sorted_snoc {A} (le : A → A → bool) x l n :
  le x n = true → insert_sorted le x (l ++ [n]) = insert_sorted le x l ++ [n].
Proof.
  intros Hn. induction l as [|y l IH]; cbn; [by rewrite Hn|].
  destruct (le x y); [done|]. by rewrite IH.
Qed.

(** A row scanned last whose key is not smaller than any other key is
    sorted last. *)
Lemma order_by_snoc {A} (le : A → A → bool) l n :
  (∀ x, x ∈ l → le x n = true) → order_by le (l ++ [n]) = order_by le l ++ [n].
Proof.
  induction l as [|x l IH]; intros Hall; [done|].
  cbn. fold (order_by le (l ++ [n])). fold (order_by le l).
  rewrite IH by (intros y Hy; apply Hall; by right).
  apply insert_sorted_snoc, Hall. left.
Qed.

Lemma waiting_sorted_NoDup q :
  NoDup (Queue.id <$> q) →
  NoDup (Queue.id <$> order_by by_join_time (waiting_rows q)).
Proof.
  intros Hnd. rewrite (order_by_perm by_join_time).
  eapply sublist_NoDup; [exact Hnd|]. apply fmap_sublist, sublist_filter.
Qed.

(** The row a successful Join stores and reads back. *)
Lemma join_queue_new_row now uid qt s s' tn pos qt' :
  reachable s →
  join_queue now (Some uid) qt s = (s', Joined tn pos qt') →
  let new := Queue.mk (S (length (queue s))) uid (ticket_label (S (length (queue s))))
                      (default "general" qt) waiting now None None None in
  let q1 := queue s ++ [new] in
  uid ≠ 0 ∧ tn = ticket_label (S (length (queue s))) ∧ qt' = default "general" qt ∧
  waiting_rows (queue s) = queue s ∧ queue_inv q1 ∧
  s' = Db (users s) (assign 1 (waiting_users q1) <$> q1) ∧
  pos = Queue.position (assign 1 (waiting_users q1) new).
Proof.
  intros Hs Hjoin new q1. destruct (reachable_inv _ Hs) as [Hq _].
  destruct (decide (uid = 0)) as [->|Huid]; [done|].
  destruct (join_queue_outcome now uid qt s Huid)
    as [existing rest Hex|Hex _|q1' r rest Hex Hfresh Hq1 Hf]; try done.
  injection Hjoin as <- <- <- <-.
  assert (insert_queue (users s) now uid (generate_ticket_number now (queue s))
            (default "general" qt) (queue s) = inr q1') as Hins.
  { unfold insert_queue. rewrite bool_decide_eq_false_2 by done. by rewrite Hq1. }
  destruct (insert_queue_inv _ _ _ _ _ _ Hq Hins) as [Hlen Hq1'].
  assert (q1' = q1) as -> by done.
  assert (generate_ticket_number now (queue s) = ticket_label (S (length (queue s))))
    as Htn.
  { unfold generate_ticket_number. rewrite Hlen. f_equal. lia. }
  assert (queue_inv q1) as Hq1inv by (by eapply queue_inv_insert).
  pose proof (queue_inv_NoDup _ Hq1inv) as Hnd.
  assert (waiting_rows (queue s) = queue s) as Hall.
  { apply filter_Forall_id. apply filter_length_all in Hlen.
    eapply Forall_impl; [exact Hlen|]. by intros ? [_ ?]. }
  rewrite update_queue_positions_spec in Hf |- * by done.
  split_and!; try done. rewrite Htn in Hf.
  unfold q1 in Hf at 2. rewrite filter_fmap_comm, filter_app in Hf.
  2:{ intros t. by destruct (assign_frame 1 (waiting_users q1) t) as (_&_&->&_). }
  rewrite (filter_none _ (queue s)) in Hf.
  2:{ intros t Ht Heq. apply Hfresh. rewrite Htn, <-Heq.
      by apply list_elem_of_fmap_2. }
  rewrite filter_cons, decide_True in Hf by done. cbn in Hf. by injection Hf as <- _.
Qed.

(** X8. The newcomer is last: when no waiting ticket has a join time
    later than the clock of the request, a successful Join returns the
    position after all waiting tickets, and that position is the number
    on the returned ticket. *)
Theorem join_queue_position now uid qt s s' tn pos qt' :
  reachable s →
  (∀ t, t ∈ waiting_rows (queue s) → Queue.join_time t ≤ now) →
  join_queue now (Some uid) qt s = (s', Joined tn pos qt') →
  pos = Some (S (length (waiting_rows (queue s)))) ∧
  tn = ticket_label (S (length (waiting_rows (queue s)))) ∧
  length (waiting_rows (queue s')) = S (length (waiting_rows (queue s))).
Proof.
  intros Hs Hclock Hjoin.
  destruct (join_queue_new_row _ _ _ _ _ _ _ _ Hs Hjoin)
    as (Huid & -> & -> & Hall & Hq1 & -> & ->).
  set (new := Queue.mk _ uid _ _ waiting now None None None) in *.
  pose proof (queue_inv_NoDup _ Hq1) as Hnd.
  assert (waiting_rows (queue s ++ [new]) = waiting_rows (queue s) ++ [new]) as Hw1.
  { unfold waiting_rows. by rewrite filter_app, filter_cons, decide_True. }
  assert (order_by by_join_time (waiting_rows (queue s ++ [new]))
          = order_by by_join_time (waiting_rows (queue s)) ++ [new]) as Hsorted.
  { rewrite Hw1. apply order_by_snoc. intros t Ht. unfold by_join_time.
    apply bool_decide_eq_true. by apply Hclock. }
  split_and!.
  - rewrite waiting_users_eq.
    rewrite (assign_position 1 _ (length (waiting_rows (queue s))) new).
    + done.
    + by apply waiting_sorted_NoDup.
    + rewrite Hsorted. apply list_lookup_middle.
      by rewrite (order_by_length by_join_time).
  - by rewrite Hall.
  - cbn [queue]. by rewrite waiting_rows_assign, length_fmap, Hw1, length_app,
      Nat.add_1_r.
Qed.

(** Dan joins after Bob and Carol, at a later clock value. *)
Lemma join_queue_position_witness :
  let r := join_queue 150 (Some 4) None two_waiting in
  r.2 = Joined "TICKET-003" (Some 3%nat) "general" ∧
  length (waiting_rows (queue r.1)) = 3%nat.
Proof.
  assert (reachable two_waiting) as Hs by apply reachable_run, reachable_init.
  assert (∀ t, t ∈ waiting_rows (queue two_waiting) → Queue.join_time t ≤ 150)
    as Hclock.
  { rewrite two_waiting_queue. intros t Ht. apply list_elem_of_filter in Ht as [_ Ht].
    repeat (apply elem_of_cons in Ht as [->|Ht]; [cbn; lia|]).
    by apply elem_of_nil in Ht. }
  destruct (join_queue 150 (Some 4) None two_waiting) as [s' resp] eqn:Hjoin.
  assert (resp = Joined "TICKET-003" (Some 3%nat) "general") as ->.
  { apply (f_equal snd) in Hjoin. cbn in Hjoin. rewrite <-Hjoin. by vm_compute. }
  destruct (join_queue_position 150 4 None two_waiting s' _ _ _ Hs Hclock Hjoin)
    as (_ & _ & Hlen).
  split; [done|]. cbn [fst]. rewrite Hlen. by rewrite two_waiting_queue.
Defined.

(** ** CallNext *)

(** X9. What a successful CallNext guarantees, for any database: the
    caller is a stored user with role admin, and the ticket number and
    name returned are those of a ticket that was waiting and of the
    stored user it belongs to. *)
Theorem call_next_called now a s s' tn fn :
  call_next now a s = (s', Called tn fn) →
  ∃ i adm t u,
    a = Some i ∧ users s !! i = Some adm ∧ Users.role adm = "admin" ∧
    t ∈ queue s ∧ Queue.status t = waiting ∧ Queue.ticket_number t = tn ∧
    users s !! Queue.user_id t = Some u ∧ Users.full_name u = fn.
Proof.
  unfold call_next. cbn zeta. destruct a as [i|]; [|done]. cbn [mbind option_bind].
  destruct (users s !! i) as [adm|] eqn:Hadm; [|done].
  case_bool_decide as Hrole; [done|].
  destruct (order_by _ _) as [|next rest] eqn:Hsort; [done|].
  intros [= <- <- <-].
  apply order_by_elem_of, waiting_with_user_elem_of in Hsort as (Hin & Hw & Hu).
  exists i, adm, next.1, next.2. by split_and!.
Qed.

Lemma call_next_called_witness :
  ∃ i adm t u,
    Some 1 = Some i ∧ users demo_state !! i = Some adm ∧ Users.role adm = "admin" ∧
    t ∈ queue demo_state ∧ Queue.status t = waiting ∧
    Queue.ticket_number t = "TICKET-003" ∧
    users demo_state !! Queue.user_id t = Some u ∧ Users.full_name u = "Dan".
Proof.
  apply (call_next_called 300 (Some 1) demo_state
           (call_next 300 (Some 1) demo_state).1 "TICKET-003" "Dan").
  by vm_compute.
Defined.

Lemma omap_nil_iff {A B} (f : A → option B) (l : list A) :
  omap f l = [] ↔ ∀ x, x ∈ l → f x = None.
Proof.
  induction l as [|x l IH]; cbn.
  - split; [by intros _ ? ?%elem_of_nil|done].
  - destruct (f x) as [y|] eqn:Hx.
    + split; [done|]. intros Hall. specialize (Hall x). rewrite Hx in Hall.
      by discriminate Hall; left.
    + rewrite IH. split.
      * intros Hall y [->|Hy]%elem_of_cons; auto.
      * intros Hall y Hy. apply Hall. by right.
Qed.

(** X10. Empty-queue signal: for an admin caller, CallNext answers
    EmptyQueue, changing nothing, exactly when no waiting ticket belongs
    to a stored user; in particular when no ticket is waiting. *)
Theorem call_next_empty_queue now i adm s :
  users s !! i = Some adm → Users.role adm = "admin" →
  (call_next now (Some i) s = (s, EmptyQueue) ↔
   ∀ t, t ∈ queue s → Queue.status t = waiting → users s !! Queue.user_id t = None).
Proof.
  intros Hadm Hrole. unfold call_next. cbn zeta. cbn [mbind option_bind].
  rewrite Hadm, bool_decide_eq_false_2 by auto.
  set (le := λ r1 r2 : Queue.row * Users.row, _).
  assert (waiting_with_user s = [] ↔
          ∀ t, t ∈ queue s → Queue.status t = waiting →
               users s !! Queue.user_id t = None) as <-.
  { unfold waiting_with_user. rewrite omap_nil_iff. split.
    - intros Hall t Ht Hw. specialize (Hall t).
      destruct (users s !! Queue.user_id t); [|done].
      by discriminate Hall; apply list_elem_of_filter.
    - intros Hall t [Hw Ht]%list_elem_of_filter. by rewrite Hall. }
  pose proof (order_by_length le (waiting_with_user s)) as Hlen.
  destruct (order_by le (waiting_with_user s)) as [|next rest];
    destruct (waiting_with_user s); try done.
Qed.

(** Nobody waits before the first Join. *)
Lemma call_next_empty_queue_witness :
  call_next 50 (Some 1) (Db demo_users []) = (Db demo_users [], EmptyQueue) ↔
  ∀ t, t ∈ [] → Queue.status t = waiting → demo_users !! Queue.user_id t = None.
Proof.
  apply (call_next_empty_queue 50 1 (Users.mk "admin" "System Admin" "admin")
           (Db demo_users [])); by vm_compute.
Defined.

(** ** Ticket labels *)

Lemma zeros_length k s : String.length (zeros k +:+ s) = (k + String.length s)%nat.
Proof.
  induction k as [|k IH]; [done|].
  change (zeros (S k) +:+ s) with (String "0"%char (zeros k +:+ s)).
  cbn. by rewrite IH.
Qed.

Lemma format_03d_length n :
  String.length (format_03d n) =
    (String.length (NilEmpty.string_of_uint (Nat.to_uint n)) `max` 3)%nat.
Proof. unfold format_03d. rewrite zeros_length. lia. Qed.

Lemma format_03d_three_digits n : (n < 1000)%nat → String.length (format_03d n) = 3%nat.
Proof.
  intros Hn.
  assert (Forall (λ n, String.length (format_03d n) = 3%nat) (seq 0 1000)) as Hall.
  { apply (bool_decide_unpack _). by vm_compute. }
  rewrite Forall_forall in Hall. apply Hall, elem_of_seq. lia.
Qed.

(** X11. The generated ticket number: it is the prefix TICKET- followed
    by decimal digits that read back as count + 1; it is never
    TICKET-000; it has at least three digits, exactly three while fewer
    than 999 tickets are counted, and it is not truncated beyond (two
    different counts never give the same number). *)
Theorem generate_ticket_number_format now q :
  let count := length (waiting_today now q) in
  let tn := generate_ticket_number now q in
  (∃ digits, tn = "TICKET-" +:+ digits ∧ read_03d digits = Some (count + 1)%nat ∧
             (3 ≤ String.length digits)%nat ∧
             ((count < 999)%nat → String.length digits = 3%nat)) ∧
  tn ≠ "TICKET-000" ∧
  ∀ now' q', generate_ticket_number now' q' = tn →
             length (waiting_today now' q') = count.
Proof.
  cbn zeta. unfold generate_ticket_number. split_and!.
  - exists (format_03d (length (waiting_today now q) + 1)). split_and!.
    + done.
    + apply read_03d_format.
    + rewrite format_03d_length. lia.
    + intros Hlt. apply format_03d_three_digits. lia.
  - change "TICKET-000" with (ticket_label 0). intros Heq%ticket_label_inj. lia.
  - intros now' q' Heq%ticket_label_inj. lia.
Qed.

(** ** queue_status *)

(** The status read for the user of a waiting row with a stored user. *)
Lemma queue_status_of_row s t u :
  queue_inv (queue s) → t ∈ queue s → Queue.status t = waiting →
  users s !! Queue.user_id t = Some u →
  queue_status (Some (Queue.user_id t)) s =
    StatusInQueue (Queue.ticket_number t) (Queue.position t) waiting
                  (Queue.queue_type t) (Queue.join_time t).
Proof.
  intros Hq Ht Hw Hu. unfold queue_status.
  destruct (waiting_row_of_user _ _ Hq Ht Hw) as [_ [rest ->]].
  cbn. rewrite Hu. cbn. by rewrite Hw.
Qed.

Lemma join_queue_existing_row now qt s t :
  queue_inv (queue s) → t ∈ queue s → Queue.status t = waiting →
  join_queue now (Some (Queue.user_id t)) qt s =
    (s, AlreadyQueued (Queue.ticket_number t) (Queue.position t)).
Proof.
  intros Hq Ht Hw.
  destruct (waiting_row_of_user _ _ Hq Ht Hw) as [Huid [rest Hex]].
  destruct (join_queue_outcome now (Queue.user_id t) qt s Huid)
    as [existing rest' Hex'|Hex' _|q1 r rest' Hex' _ _ _];
    rewrite Hex in Hex'; [|done..].
  by injection Hex' as <- <-.
Qed.

(** X12. queue_status and join_queue agree: in every reachable state,
    for a stored user, queue_status reports "in queue" with a number and
    a position exactly when a Join of that user would be answered
    AlreadyQueued with the same number and position. *)
Theorem queue_status_agrees_with_join now qt s uid u tn pos :
  reachable s → uid ≠ 0 → users s !! uid = Some u →
  ((∃ st qt' jt, queue_status (Some uid) s = StatusInQueue tn pos st qt' jt) ↔
   join_queue now (Some uid) qt s = (s, AlreadyQueued tn pos)).
Proof.
  intros Hs Huid Hu. destruct (reachable_inv _ Hs) as [Hq _].
  destruct (filter (λ t, Queue.user_id t = uid ∧ Queue.status t = waiting) (queue s))
    as [|t rest] eqn:Hf.
  - split.
    + intros (st & qt' & jt & Hst). unfold queue_status in Hst. by rewrite Hf in Hst.
    + intros Hjoin.
      destruct (join_queue_outcome now uid qt s Huid)
        as [existing rest Hex|Hex _|q1 r rest Hex _ _ _]; try done.
      by rewrite Hf in Hex.
  - assert (t ∈ t :: rest) as Ht by left.
    rewrite <-Hf in Ht. apply list_elem_of_filter in Ht as [[<- Hw] Ht].
    rewrite (queue_status_of_row s t u), (join_queue_existing_row now qt s t)
      by done.
    split; [by intros (? & ? & ? & [= -> ->])|intros [= -> ->]; eauto].
Qed.

(** Dan waits in the scenario with TICKET-003 at position 1. *)
Lemma queue_status_agrees_with_join_witness :
  (∃ st qt' jt, queue_status (Some 4) demo_state =
                  StatusInQueue "TICKET-003" (Some 1%nat) st qt' jt) ↔
  join_queue 300 (Some 4) None demo_state =
    (demo_state, AlreadyQueued "TICKET-003" (Some 1%nat)).
Proof.
  assert (4 ≠ 0) as H4 by lia.
  apply (queue_status_agrees_with_join 300 None demo_state 4
           (Users.mk "dan" "Dan" "user") _ _ demo_state_reachable H4).
  by vm_compute.
Defined.

(** X13. Not in queue: for any database, queue_status answers "not in
    queue" exactly when the user has no waiting ticket or the user id is
    not a stored user; a waiting ticket of an unknown user is invisible
    to it. *)
Theorem queue_status_not_in_queue uid s :
  queue_status (Some uid) s = StatusNotInQueue ↔
  (∀ t, t ∈ queue s → Queue.user_id t = uid → Queue.status t ≠ waiting) ∨
  users s !! uid = None.
Proof.
  unfold queue_status.
  destruct (omap _ _) as [|entry rest] eqn:Homap.
  - split; [intros _|done].
    rewrite omap_nil_iff in Homap.
    destruct (users s !! uid) as [u|] eqn:Hu; [left|by right].
    intros t Ht <- Hw. specialize (Homap t). rewrite Hu in Homap.
    by discriminate Homap; apply list_elem_of_filter.
  - split; [done|]. intros Hno. exfalso.
    assert (entry ∈ entry :: rest) as Hin by left.
    rewrite <-Homap in Hin. apply list_elem_of_omap in Hin as (t & Ht & Hjoin).
    apply list_elem_of_filter in Ht as [[<- Hw] Ht].
    destruct Hno as [Hno|Hno]; [by apply (Hno t)|by rewrite Hno in Hjoin].
Qed.

(** X14. After a successful Join of a stored user, queue_status shows
    what the Join returned: the same ticket number and position, status
    waiting, the queue type given (general by default) and the clock of
    the Join as join time. *)
Theorem queue_status_after_join now uid qt s s' tn pos qt' u :
  reachable s → users s !! uid = Some u →
  join_queue now (Some uid) qt s = (s', Joined tn pos qt') →
  queue_status (Some uid) s' = StatusInQueue tn pos waiting qt' now ∧
  qt' = default "general" qt.
Proof.
  intros Hs Hu Hjoin.
  assert (reachable s') as Hs'.
  { replace s' with (handle (Join now (Some uid) qt) s).1
      by (cbn [handle]; by rewrite Hjoin).
    by apply reachable_handle. }
  destruct (reachable_inv _ Hs') as [Hq' _].
  destruct (join_queue_new_row _ _ _ _ _ _ _ _ Hs Hjoin)
    as (Huid & -> & -> & _ & _ & -> & ->).
  split; [|done].
  set (new := Queue.mk _ uid _ _ waiting now None None None) in *.
  set (ids := waiting_users (queue s ++ [new])) in *.
  destruct (assign_frame 1 ids new) as (_&Hu'&Htn&Hqt&Hst&Hjt&_).
  cbn in Hu', Htn, Hqt, Hst, Hjt.
  rewrite <-Hu' at 1. rewrite <-Htn, <-Hqt, <-Hjt.
  apply (queue_status_of_row _ (assign 1 ids new) u); [done| |done|].
  - cbn [queue]. apply list_elem_of_fmap_2, elem_of_app. right. left.
  - cbn [users]. by rewrite Hu'.
Qed.

Lemma queue_status_after_join_witness :
  let s' := (join_queue 150 (Some 4) (Some "vip") two_waiting).1 in
  queue_status (Some 4) s' = StatusInQueue "TICKET-003" (Some 3%nat) waiting "vip" 150 ∧
  "vip" = default "general" (Some "vip").
Proof.
  assert (reachable two_waiting) as Hs by apply reachable_run, reachable_init.
  apply (queue_status_after_join 150 4 (Some "vip") two_waiting _ _ _ _
           (Users.mk "dan" "Dan" "user") Hs); by vm_compute.
Defined.

(** ** How the positions move when a ticket is retired *)

Lemma insert_sorted_front {A} (le : A → A → bool) x l :
  (∀ z, z ∈ l → le x z = true) → insert_sorted le x l = x :: l.
Proof.
  destruct l as [|y l]; [done|]. intros Hall. cbn.
  by rewrite Hall by left.
Qed.

Lemma filter_insert_sorted {A} (le : A → A → bool) (P : A → Prop)
    `{!∀ x, Decision (P x)} x l :
  (∀ x y z, le x y = true → le y z = true → le x z = true) →
  StronglySorted (λ a b, le a b = true) l →
  filter P (insert_sorted le x l) =
    if decide (P x) then insert_sorted le x (filter P l) else filter P l.
Proof.
  intros Htrans. induction 1 as [|y l Hl IH Hy]; cbn [insert_sorted].
  { rewrite filter_cons, filter_nil. by destruct (decide (P x)). }
  destruct (le x y) eqn:Hxy.
  - rewrite filter_cons. destruct (decide (P x)); [|done].
    rewrite insert_sorted_front; [done|].
    intros z [_ Hz]%list_elem_of_filter.
    apply elem_of_cons in Hz as [->|Hz]; [done|].
    eapply Htrans; [exact Hxy|]. by eapply Forall_forall in Hy.
  - rewrite (filter_cons _ y (insert_sorted le x l)), IH.
    rewrite (filter_cons _ y l).
    destruct (decide (P x)), (decide (P y)); try done.
    cbn. by rewrite Hxy.
Qed.

(** Sorting and filtering commute: removing rows does not reorder the
    others. *)
Lemma filter_order_by {A} (le : A → A → bool) (P : A → Prop)
    `{!∀ x, Decision (P x)} l :
  (∀ x y, le x y = false → le y x = true) →
  (∀ x y z, le x y = true → le y z = true → le x z = true) →
  filter P (order_by le l) = order_by le (filter P l).
Proof.
  intros Htotal Htrans. induction l as [|x l IH]; [done|].
  change (order_by le (x :: l)) with (insert_sorted le x (order_by le l)).
  rewrite filter_insert_sorted by (done || by apply order_by_sorted).
  rewrite filter_cons, IH. by destruct (decide (P x)).
Qed.

Lemma filter_ne_lookup {A} `{!EqDecision A} (l : list A) k0 x0 k x :
  NoDup l → l !! k0 = Some x0 → l !! k = Some x → k ≠ k0 →
  filter (λ y, y ≠ x0) l !! (if decide (k < k0)%nat then k else k - 1)%nat = Some x.
Proof.
  intros Hnd Hk0 Hk Hne.
  rewrite <-(take_drop_middle l k0 x0 Hk0) in Hnd, Hk |- *.
  apply NoDup_app in Hnd as (Hnd1 & Hdisj & Hnd2).
  apply NoDup_cons in Hnd2 as [Hx0 Hnd2].
  pose proof (lookup_lt_Some _ _ _ Hk0) as Hlt0.
  assert (length (take k0 l) = k0) as Hlen by (rewrite length_take; lia).
  rewrite filter_app, filter_cons.
  rewrite (decide_False (P:=x0 ≠ x0)) by (intros Hn; by apply Hn).
  rewrite !filter_Forall_id.
  2:{ apply Forall_forall. by intros y Hy ->. }
  2:{ apply Forall_forall. intros y Hy ->. apply (Hdisj x0 Hy). left. }
  destruct (decide (k < k0)%nat).
  - rewrite lookup_app_l in Hk |- * by lia. done.
  - rewrite lookup_app_r in Hk |- * by lia. rewrite Hlen in Hk |- *.
    destruct (k - k0)%nat as [|d] eqn:Hd; [lia|].
    cbn in Hk. by replace (k - 1 - k0)%nat with d by lia.
Qed.

Lemma update_queue_positions_rank q k t :
  NoDup (Queue.id <$> q) →
  order_by by_join_time (waiting_rows (update_queue_positions q)) !! k = Some t →
  Queue.position t = Some (1 + k)%nat.
Proof.
  intros Hnd. rewrite update_queue_positions_spec by done.
  rewrite waiting_rows_assign, order_by_fmap, list_lookup_fmap.
  2:{ intros x y. unfold by_join_time.
      destruct (assign_frame 1 (waiting_users q) x) as (_&_&_&_&_&->&_).
      by destruct (assign_frame 1 (waiting_users q) y) as (_&_&_&_&_&->&_). }
  destruct (order_by _ _ !! k) as [t1|] eqn:Hk; [|done]. intros [= <-].
  rewrite waiting_users_eq. apply assign_position; [|done].
  by apply waiting_sorted_NoDup.
Qed.

(** In a reachable state the stored position of a waiting row is its
    rank in join order. *)
Lemma reachable_rank s k t :
  reachable s →
  order_by by_join_time (waiting_rows (queue s)) !! k = Some t →
  Queue.position t = Some (1 + k)%nat.
Proof.
  induction 1 as [us|r s Hs IH|us s _ IH]; cbn [queue]; [done| |done].
  destruct (reachable_inv _ Hs) as [Hq _].
  destruct (handle_effect r s) as [now He]; [by apply queue_inv_NoDup|].
  destruct He as [|uid qt q1 Huid Hex Hins|g Hg]; cbn [queue]; [done| |].
  - apply update_queue_positions_rank.
    eapply queue_inv_NoDup, queue_inv_insert; eauto.
  - apply update_queue_positions_rank.
    by apply queue_inv_NoDup, queue_inv_retires.
Qed.

Lemma waiting_rows_retire_one (g : Queue.row → Queue.row) q t0 :
  (∀ t, t ∈ q → t ≠ t0 → g t = t) → Queue.status (g t0) ≠ waiting →
  waiting_rows (g <$> q) = filter (λ t, t ≠ t0) (waiting_rows q).
Proof.
  intros Hg Hst. unfold waiting_rows. induction q as [|t q IH]; [done|].
  rewrite fmap_cons, !filter_cons.
  rewrite IH by (intros t' Ht'; apply Hg; by right).
  destruct (decide (t = t0)) as [->|Hne].
  - rewrite decide_False by done.
    destruct (decide (Queue.status t0 = waiting)); [|done].
    rewrite filter_cons. by rewrite decide_False by (intros Hn; by apply Hn).
  - rewrite Hg by (done || left).
    destruct (decide (Queue.status t = waiting)); [|done].
    by rewrite filter_cons, decide_True.
Qed.

(** Retiring one waiting row and recomputing: the rows ahead of it keep
    their position, the rows behind it move up by one. *)
Lemma retire_one_moves_up (g : Queue.row → Queue.row) s t0 p0 k t p :
  reachable s →
  t0 ∈ queue s → Queue.status t0 = waiting → Queue.position t0 = Some p0 →
  (∀ t, t ∈ queue s → t ≠ t0 → g t = t) →
  Queue.status (g t0) ≠ waiting → Queue.id (g t0) = Queue.id t0 →
  queue s !! k = Some t → Queue.status t = waiting → t ≠ t0 →
  Queue.position t = Some p →
  ∃ t', update_queue_positions (g <$> queue s) !! k = Some t' ∧
        same_ticket t t' ∧ Queue.status t' = waiting ∧
        Queue.position t' = Some (if decide (p < p0)%nat then p else p - 1)%nat.
Proof.
  intros Hs Ht0 Hw0 Hp0 Hg Hst0 Hid0 Hk Hw Hne Hp.
  destruct (reachable_inv _ Hs) as [Hq _].
  pose proof (queue_inv_NoDup _ Hq) as Hnd.
  assert (t ∈ queue s) as Ht by by eapply list_elem_of_lookup_2.
  assert (NoDup (Queue.id <$> (g <$> queue s))) as Hndg.
  { rewrite <-list_fmap_compose. erewrite list_fmap_ext; [exact Hnd|].
    intros i x Hx. cbn. apply list_elem_of_lookup_2 in Hx.
    destruct (decide (x = t0)) as [->|Hx0]; [done|]. by rewrite Hg. }
  set (sorted := order_by by_join_time (waiting_rows (queue s))).
  assert (NoDup sorted) as Hnds.
  { eapply NoDup_fmap_1. by apply waiting_sorted_NoDup. }
  assert (∃ k0, sorted !! k0 = Some t0) as [k0 Hk0].
  { apply list_elem_of_lookup_1. unfold sorted. rewrite (order_by_perm by_join_time).
    by apply list_elem_of_filter. }
  assert (∃ j, sorted !! j = Some t) as [j Hj].
  { apply list_elem_of_lookup_1. unfold sorted. rewrite (order_by_perm by_join_time).
    by apply list_elem_of_filter. }
  pose proof (reachable_rank s k0 t0 Hs Hk0) as Hr0.
  pose proof (reachable_rank s j t Hs Hj) as Hr.
  assert (p0 = (1 + k0)%nat ∧ p = (1 + j)%nat) as [-> ->] by (split; congruence).
  assert (j ≠ k0) as Hjk by (intros ->; congruence).
  assert (order_by by_join_time (waiting_rows (g <$> queue s))
          = filter (λ y, y ≠ t0) sorted) as Hsorted1.
  { rewrite (waiting_rows_retire_one g _ t0) by done.
    symmetry. apply filter_order_by;
      [apply by_join_time_total | apply by_join_time_trans]. }
  rewrite update_queue_positions_spec by done.
  rewrite !list_lookup_fmap, Hk. cbn. rewrite (Hg t) by done.
  eexists. split; [done|].
  destruct (assign_frame 1 (waiting_users (g <$> queue s)) t)
    as (Hid&Hu&Htn&Hqt&Hst&Hjt&_).
  unfold same_ticket. split_and!; try done; [congruence|].
  rewrite waiting_users_eq, Hsorted1.
  rewrite (assign_position 1 _ (if decide (j < k0)%nat then j else j - 1)%nat t).
  - f_equal. repeat case_decide; lia.
  - rewrite <-Hsorted1. by apply waiting_sorted_NoDup.
  - by apply filter_ne_lookup.
Qed.

(** X15. Leave moves the queue up: after a successful Leave, every
    other waiting ticket is still waiting; those that were ahead of the
    leaver keep their position and those behind move up by exactly
    one. *)
Theorem leave_queue_moves_up now uid s s' :
  reachable s → leave_queue now (Some uid) s = (s', LeftQueue) →
  ∃ t0 p0,
    t0 ∈ queue s ∧ Queue.user_id t0 = uid ∧ Queue.status t0 = waiting ∧
    Queue.position t0 = Some p0 ∧
    ∀ k t p, queue s !! k = Some t → Queue.status t = waiting → t ≠ t0 →
      Queue.position t = Some p →
      ∃ t', queue s' !! k = Some t' ∧ same_ticket t t' ∧
            Queue.status t' = waiting ∧
            Queue.position t' = Some (if decide (p < p0)%nat then p else p - 1)%nat.
Proof.
  intros Hs. destruct (reachable_inv _ Hs) as [Hq Hpos].
  unfold leave_queue. cbn zeta. destruct (decide _) as [|Hne]; [done|].
  intros [= <-].
  destruct (filter _ (queue s)) as [|t0 rest] eqn:Hf; [done|].
  assert (t0 ∈ t0 :: rest) as Ht0 by left.
  rewrite <-Hf in Ht0. apply list_elem_of_filter in Ht0 as [[Hu0 Hw0] Ht0].
  destruct (positions_ok_lower_bound _ t0 Hpos) as (p0 & Hp0 & _);
    [by apply list_elem_of_filter|].
  exists t0, p0. split_and!; try done.
  intros k t p Hk Hw Hne0 Hp. cbn [queue].
  apply (retire_one_moves_up _ s t0 p0 k t p); try done.
  - intros t' Ht' Hne'. rewrite decide_False; [done|]. intros [Hu' Hw'].
    apply Hne'. apply (fmap_id_inj Queue.user_id (waiting_rows (queue s)));
      [by apply (inv_single _ Hq)| | |congruence]; by apply list_elem_of_filter.
  - by rewrite decide_True.
  - by rewrite decide_True.
Qed.

(** Eve (user 5, position 2) leaves the scenario queue: Dan stays first,
    Fay moves from 3 to 2. *)
Lemma leave_queue_moves_up_witness :
  let s' := (leave_queue 300 (Some 5) demo_state).1 in
  Queue.position <$> queue s' !! 2%nat = Some (Some 1%nat) ∧
  Queue.position <$> queue s' !! 4%nat = Some (Some 2%nat) ∧
  ∃ t0 p0,
    t0 ∈ queue demo_state ∧ Queue.user_id t0 = 5 ∧ Queue.status t0 = waiting ∧
    Queue.position t0 = Some p0 ∧
    ∀ k t p, queue demo_state !! k = Some t → Queue.status t = waiting → t ≠ t0 →
      Queue.position t = Some p →
      ∃ t', queue s' !! k = Some t' ∧ same_ticket t t' ∧
            Queue.status t' = waiting ∧
            Queue.position t' = Some (if decide (p < p0)%nat then p else p - 1)%nat.
Proof.
  split; [by vm_compute|]. split; [by vm_compute|].
  apply (leave_queue_moves_up 300 5 demo_state _ demo_state_reachable).
  by vm_compute.
Defined.

(** X16. CallNext moves the queue up in the same way: every other
    waiting ticket stays waiting, keeps its position if it was ahead of
    the called ticket and moves up by one if it was behind. *)
Theorem call_next_moves_up now a s s' tn fn :
  reachable s → call_next now a s = (s', Called tn fn) →
  ∃ t0 p0,
    t0 ∈ queue s ∧ Queue.ticket_number t0 = tn ∧ Queue.status t0 = waiting ∧
    Queue.position t0 = Some p0 ∧
    ∀ k t p, queue s !! k = Some t → Queue.status t = waiting → t ≠ t0 →
      Queue.position t = Some p →
      ∃ t', queue s' !! k = Some t' ∧ same_ticket t t' ∧
            Queue.status t' = waiting ∧
            Queue.position t' = Some (if decide (p < p0)%nat then p else p - 1)%nat.
Proof.
  intros Hs. destruct (reachable_inv _ Hs) as [Hq Hpos].
  pose proof (queue_inv_NoDup _ Hq) as Hnd.
  unfold call_next. cbn zeta. destruct (a ≫= _) as [adm|]; [|done].
  destruct (bool_decide _); [done|].
  destruct (order_by _ _) as [|next rest] eqn:Hsort; [done|].
  intros [= <- <- <-].
  apply order_by_elem_of, waiting_with_user_elem_of in Hsort as (Hin & Hw0 & _).
  destruct (positions_ok_lower_bound _ next.1 Hpos) as (p0 & Hp0 & _);
    [by apply list_elem_of_filter|].
  exists next.1, p0. split_and!; try done.
  intros k t p Hk Hw Hne0 Hp. cbn [queue].
  apply (retire_one_moves_up _ s next.1 p0 k t p); try done.
  - intros t' Ht' Hne'. rewrite decide_False; [done|]. intros Hid.
    apply Hne'. by apply (fmap_id_inj Queue.id (queue s)).
  - by rewrite decide_True.
  - by rewrite decide_True.
Qed.

(** The administrator calls Dan (position 1): Eve and Fay move up. *)
Lemma call_next_moves_up_witness :
  let s' := (call_next 300 (Some 1) demo_state).1 in
  Queue.position <$> queue s' !! 3%nat = Some (Some 1%nat) ∧
  Queue.position <$> queue s' !! 4%nat = Some (Some 2%nat) ∧
  ∃ t0 p0,
    t0 ∈ queue demo_state ∧ Queue.ticket_number t0 = "TICKET-003" ∧
    Queue.status t0 = waiting ∧ Queue.position t0 = Some p0 ∧
    ∀ k t p, queue demo_state !! k = Some t → Queue.status t = waiting → t ≠ t0 →
      Queue.position t = Some p →
      ∃ t', queue s' !! k = Some t' ∧ same_ticket t t' ∧
            Queue.status t' = waiting ∧
            Queue.position t' = Some (if decide (p < p0)%nat then p else p - 1)%nat.
Proof.
  split; [by vm_compute|]. split; [by vm_compute|].
  apply (call_next_moves_up 300 (Some 1) demo_state _ _ "Dan" demo_state_reachable).
  by vm_compute.
Defined.

(** ** The [users] table: register, login, init_database *)

Lemma foldr_max_ge (l : list Z) x : x ∈ l → x ≤ foldr Z.max 0 l.
Proof.
  induction l as [|y l IH]; [by intros ?%elem_of_nil|].
  intros [->|Hx]%elem_of_cons; cbn; [lia|]. specialize (IH Hx). lia.
Qed.

Lemma next_user_id_fresh accs i a :
  accs !! i = Some a → i < next_user_id accs.
Proof.
  intros Hi. unfold next_user_id.
  assert (i ≤ foldr Z.max 0 (map_to_list accs).*1); [|lia].
  apply foldr_max_ge, list_elem_of_fmap. exists (i, a).
  split; [done|]. by apply elem_of_map_to_list.
Qed.

Lemma next_user_id_None accs : accs !! next_user_id accs = None.
Proof.
  destruct (accs !! next_user_id accs) as [a|] eqn:Hi; [|done].
  apply next_user_id_fresh in Hi. lia.
Qed.

Lemma find_user_Some name accs i a :
  find_user name accs = Some (i, a) →
  accs !! i = Some a ∧ Users.username (Accounts.user a) = name.
Proof.
  unfold find_user. intros Hhd%head_Some_elem_of.
  apply list_elem_of_filter in Hhd as [Hname Hin].
  split; [by apply elem_of_map_to_list|done].
Qed.

Lemma find_user_None name accs :
  find_user name accs = None ↔
  ∀ i a, accs !! i = Some a → Users.username (Accounts.user a) ≠ name.
Proof.
  unfold find_user. rewrite head_None. split.
  - intros Hf i a Hi Hname.
    eapply (filter_nil_not_elem_of _ _ (i, a)); [exact Hf|done|].
    by apply elem_of_map_to_list.
  - intros Hall. apply filter_none. intros [i a] Hin%elem_of_map_to_list.
    by apply (Hall i a).
Qed.

Lemma find_user_unique name accs i a :
  usernames_unique accs → accs !! i = Some a →
  Users.username (Accounts.user a) = name →
  find_user name accs = Some (i, a).
Proof.
  intros Huniq Hi Hname.
  destruct (find_user name accs) as [[j b]|] eqn:Hf.
  - apply find_user_Some in Hf as [Hj Hb].
    assert (j = i) as -> by (eapply Huniq; [done..|congruence]). congruence.
  - rewrite find_user_None in Hf. by destruct (Hf i a).
Qed.

Lemma usernames_unique_insert accs a :
  usernames_unique accs →
  find_user (Users.username (Accounts.user a)) accs = None →
  usernames_unique (<[next_user_id accs := a]> accs).
Proof.
  intros Huniq Hnone i j x y Hi Hj Hname. rewrite find_user_None in Hnone.
  apply lookup_insert_Some in Hi as [[<- <-]|[Hni Hi]],
    Hj as [[<- <-]|[Hnj Hj]]; try done.
  - by destruct (Hnone j y).
  - by destruct (Hnone i x).
  - by apply (Huniq i j x y).
Qed.

Lemma missing_false x : missing x = false → ∃ s, x = Some s ∧ s ≠ "".
Proof.
  destruct x as [s|]; [|done]. cbn. intros Hs%bool_decide_eq_false. eauto.
Qed.

(** What a successful [register] did. *)
Lemma register_Registered hashpw salt u p f ph e S S' id name :
  register hashpw salt u p f ph e S = (S', Registered id name) →
  ∃ u' p' f',
    u = Some u' ∧ u' ≠ "" ∧ p = Some p' ∧ p' ≠ "" ∧ f = Some f' ∧ f' ≠ "" ∧
    name = u' ∧ find_user u' (accounts S) = None ∧
    id = next_user_id (accounts S) ∧
    S' = FullDb (<[id := Accounts.mk (Users.mk u' f' "user") (hashpw p' salt)
                         (Some (default "" ph)) (Some (default "" e))]> (accounts S))
                (tickets S).
Proof.
  unfold register.
  destruct (missing u) eqn:Hu; [done|]. destruct (missing p) eqn:Hp; [done|].
  destruct (missing f) eqn:Hf; [done|]. cbn [orb].
  apply missing_false in Hu as (u' & -> & Hu), Hp as (p' & -> & Hp),
    Hf as (f' & -> & Hf).
  cbn zeta. cbn [from_option Datatypes.id].
  destruct (find_user u' (accounts S)) eqn:Hfind; [done|].
  intros [= <- <- <-]. exists u', p', f'. by split_and!.
Qed.

(** X17. A successful [register] adds exactly one user: the key is new
    and larger than every key in use, the row has the name given, role
    user and the hash of the password given; no stored user had that
    name; every other user and every ticket is left as it was. *)
Theorem register_adds_user hashpw salt u p f ph e S S' id name :
  register hashpw salt u p f ph e S = (S', Registered id name) →
  u = Some name ∧
  accounts S !! id = None ∧
  (∀ j a, accounts S !! j = Some a →
     j < id ∧ accounts S' !! j = Some a ∧ Users.username (Accounts.user a) ≠ name) ∧
  (∃ a, accounts S' !! id = Some a ∧
        Users.username (Accounts.user a) = name ∧
        Users.role (Accounts.user a) = "user" ∧
        Some (Users.full_name (Accounts.user a)) = f ∧
        Accounts.password a = hashpw (default "" p) salt) ∧
  (∀ j, j ≠ id → accounts S' !! j = accounts S !! j) ∧
  tickets S' = tickets S.
Proof.
  intros (u' & p' & f' & -> & _ & -> & _ & -> & _ & -> & Hnone & -> & ->)
    %register_Registered.
  cbn [accounts tickets]. split_and!; try done.
  - apply next_user_id_None.
  - intros j a Hj. pose proof (next_user_id_fresh _ _ _ Hj) as Hlt.
    split_and!; [done| |].
    + rewrite lookup_insert_ne by lia. done.
    + rewrite find_user_None in Hnone. by apply (Hnone j a).
  - eexists. rewrite lookup_insert_eq. by split_and!.
  - intros j Hj. by rewrite lookup_insert_ne.
Qed.

Lemma register_adds_user_witness :
  let r := register demo_hashpw "s3" (Some "dan") (Some "pw") (Some "Dan") None None
                    demo_app in
  r.2 = Registered 4 "dan" ∧ accounts demo_app !! 4 = None ∧
  tickets r.1 = tickets demo_app.
Proof.
  destruct (register demo_hashpw "s3" (Some "dan") (Some "pw") (Some "Dan") None None
                     demo_app) as [S' resp] eqn:Hreg.
  assert (resp = Registered 4 "dan") as ->.
  { apply (f_equal snd) in Hreg. cbn [snd] in Hreg. rewrite <-Hreg. by vm_compute. }
  destruct (register_adds_user _ _ _ _ _ _ _ _ _ _ _ Hreg)
    as (_ & Hfresh & _ & _ & _ & Htickets).
  by split_and!.
Defined.


(** X19. A user created by [register] cannot call the next ticket: a
    CallNext with the id just returned is answered PermissionDenied and
    changes nothing. *)
Theorem registered_user_cannot_call_next hashpw salt u p f ph e now S S' id name :
  register hashpw salt u p f ph e S = (S', Registered id name) →
  lift (call_next now (Some id)) S' = (S', PermissionDenied).
Proof.
  intros (u' & p' & f' & -> & _ & -> & _ & -> & _ & -> & Hnone & -> & ->)
    %register_Registered.
  unfold lift, call_next, view. cbn [accounts tickets users queue].
  cbn zeta. cbn [mbind option_bind].
  rewrite lookup_fmap, lookup_insert_eq. cbn.
  by rewrite bool_decide_eq_true_2.
Qed.

Lemma registered_user_cannot_call_next_witness :
  let S' := (register demo_hashpw "s3" (Some "dan") (Some "pw") (Some "Dan") None None
                      demo_app).1 in
  lift (call_next 300 (Some 4)) S' = (S', PermissionDenied).
Proof.
  apply (registered_user_cannot_call_next demo_hashpw "s3" (Some "dan") (Some "pw")
           (Some "Dan") None None 300 demo_app _ 4 "dan").
  by vm_compute.
Defined.

Lemma find_user_insert_new name accs a :
  find_user name accs = None → Users.username (Accounts.user a) = name →
  find_user name (<[next_user_id accs := a]> accs) = Some (next_user_id accs, a).
Proof.
  intros Hnone Hname. unfold find_user in *. apply head_None in Hnone.
  assert (filter (λ ia : Z * Accounts.row,
                    Users.username (Accounts.user ia.2) = name)
                 (map_to_list (<[next_user_id accs := a]> accs))
          = [(next_user_id accs, a)]) as ->; [|done].
  apply Permutation_singleton_r.
  rewrite map_to_list_insert by apply next_user_id_None.
  by rewrite filter_cons, decide_True, Hnone.
Qed.

(** X20. Register, then log in: when bcrypt accepts the password against
    the hash it produced, a login with the name and password just
    registered succeeds and returns the new id, the names given and the
    role user. *)
Theorem login_after_register hashpw checkpw salt u p f ph e S S' id name :
  checkpw (default "" p) (hashpw (default "" p) salt) = true →
  register hashpw salt u p f ph e S = (S', Registered id name) →
  login checkpw u p S' = LoggedIn id name (default "" f) "user".
Proof.
  intros Hcheck
    (u' & p' & f' & -> & Hu & -> & Hp & -> & _ & -> & Hnone & -> & ->)
    %register_Registered.
  unfold login. cbn [missing from_option Datatypes.id accounts] in *.
  rewrite !bool_decide_eq_false_2 by done. cbn [orb].
  rewrite (find_user_insert_new u') by done. cbn. by rewrite Hcheck.
Qed.

Lemma login_after_register_witness :
  let S' := (register demo_hashpw "s3" (Some "dan") (Some "pw") (Some "Dan") None None
                      demo_app).1 in
  login demo_checkpw (Some "dan") (Some "pw") S' = LoggedIn 4 "dan" "Dan" "user".
Proof.
  apply (login_after_register demo_hashpw demo_checkpw "s3" (Some "dan") (Some "pw")
           (Some "Dan") None None demo_app); by vm_compute.
Defined.

(** ** The whole application *)

Lemma init_database_empty hashpw salt :
  init_database hashpw salt (FullDb ∅ []) =
    FullDb {[1 := Accounts.mk default_admin (hashpw "admin123" salt) None None]} [].
Proof. done. Qed.

Lemma app_inv_init hashpw salt : app_inv hashpw (init_database hashpw salt (FullDb ∅ [])).
Proof.
  rewrite init_database_empty. split; cbn [accounts].
  - intros i j a b [<- <-]%lookup_singleton_Some [<- <-]%lookup_singleton_Some. done.
  - eexists _, salt. by rewrite lookup_singleton_eq.
  - by intros i a [<- <-]%lookup_singleton_Some.
Qed.

Lemma app_inv_find_admin hashpw S :
  app_inv hashpw S → ∃ a, find_user "admin" (accounts S) = Some (1, a) ∧
                          Accounts.user a = default_admin ∧
                          ∃ salt, Accounts.password a = hashpw "admin123" salt.
Proof.
  intros [Huniq (a & salt & Ha & Hrow & Hpw) _]. exists a. split_and!; [|done|eauto].
  apply find_user_unique; [done..|]. by rewrite Hrow.
Qed.

Lemma app_inv_handle hashpw r S :
  app_inv hashpw S → app_inv hashpw (app_handle hashpw r S).
Proof.
  intros Hinv. destruct (app_inv_find_admin _ _ Hinv) as (adm & Hfind & _).
  destruct r as [salt|salt u p f ph e|r]; cbn [app_handle].
  - unfold init_database. by rewrite Hfind.
  - destruct (register hashpw salt u p f ph e S) as [S' resp] eqn:Hreg.
    destruct resp as [|id name|]; cbn [fst].
    + unfold register in Hreg.
      repeat (case_match; simplify_eq/=; try done).
    + apply register_Registered in Hreg
        as (u' & p' & f' & -> & _ & -> & _ & -> & _ & -> & Hnone & -> & ->).
      destruct Hinv as [Huniq (a & salt' & Ha & Hrow & Hpw) Hroles].
      pose proof (next_user_id_fresh _ _ _ Ha) as Hlt.
      split; cbn [accounts].
      * by apply usernames_unique_insert.
      * exists a, salt'. by rewrite lookup_insert_ne by lia.
      * intros i x [[<- <-]|[_ Hi]]%lookup_insert_Some; [done|]. by eapply Hroles.
    + unfold register in Hreg.
      repeat (case_match; simplify_eq/=; try done).
  - destruct Hinv as [Huniq Hadm Hroles]. by split.
Qed.

Lemma app_reachable_inv hashpw S : app_reachable hashpw S → app_inv hashpw S.
Proof.
  induction 1 as [salt|r S _ IH]; [apply app_inv_init | by apply app_inv_handle].
Qed.

(** The queue endpoints see a reachable state of the queue. *)
Lemma app_reachable_view hashpw S : app_reachable hashpw S → reachable (view S).
Proof.
  induction 1 as [salt|r S _ IH].
  - rewrite init_database_empty. apply reachable_init.
  - destruct r as [salt|salt u p f ph e|r]; cbn [app_handle].
    + unfold init_database. destruct (find_user _ _); [done|].
      apply (reachable_users _ (view S) IH).
    + assert (tickets (register hashpw salt u p f ph e S).1 = tickets S) as Ht.
      { unfold register. by repeat case_match. }
      unfold view. rewrite Ht. apply (reachable_users _ (view S) IH).
    + apply (reachable_users _ (handle r (view S)).1). by apply reachable_handle.
Qed.

(** X21. The only administrator is the default admin: in every state of
    the application user 1 is the row that [init_database] created
    (admin, System Admin, role admin), no other user has role admin, and
    no two users share a name. *)
Theorem only_default_admin hashpw S :
  app_reachable hashpw S →
  (∃ a, accounts S !! 1 = Some a ∧ Accounts.user a = default_admin) ∧
  (∀ i a, accounts S !! i = Some a → Users.role (Accounts.user a) = "admin" → i = 1) ∧
  (∀ i j a b, accounts S !! i = Some a → accounts S !! j = Some b →
     Users.username (Accounts.user a) = Users.username (Accounts.user b) → i = j).
Proof.
  intros [Huniq (a & salt & Ha & Hrow & _) Hroles]%app_reachable_inv.
  split_and!; [eauto|done|done].
Qed.

Lemma demo_app_reachable : app_reachable demo_hashpw demo_app.
Proof.
  unfold demo_app.
  generalize (app_reachable_init demo_hashpw "s0").
  generalize (init_database demo_hashpw "s0" (FullDb ∅ [])).
  induction [Register "s1" _ _ _ _ _; _; _; _] as [|r rs IH]; intros S HS; [done|].
  apply IH. by apply app_reachable_handle.
Qed.

Lemma only_default_admin_witness :
  (∃ a, accounts demo_app !! 1 = Some a ∧ Accounts.user a = default_admin) ∧
  (∀ i a, accounts demo_app !! i = Some a →
     Users.role (Accounts.user a) = "admin" → i = 1) ∧
  (∀ i j a b, accounts demo_app !! i = Some a → accounts demo_app !! j = Some b →
     Users.username (Accounts.user a) = Users.username (Accounts.user b) → i = j).
Proof. exact (only_default_admin demo_hashpw demo_app demo_app_reachable). Defined.



(** X23. The default credentials always work: no endpoint changes a
    password, so in every state of the application, if bcrypt accepts a
    password against its own hash, the login admin / admin123 succeeds as
    user 1 with role admin. *)
Theorem default_admin_login hashpw checkpw S :
  (∀ salt, checkpw "admin123" (hashpw "admin123" salt) = true) →
  app_reachable hashpw S →
  login checkpw (Some "admin") (Some "admin123") S =
    LoggedIn 1 "admin" "System Admin" "admin".
Proof.
  intros Hcheck Hinv%app_reachable_inv.
  destruct (app_inv_find_admin _ _ Hinv) as (adm & Hfind & Hrow & salt & Hpw).
  unfold login. cbn. rewrite Hfind, Hpw, Hcheck, Hrow. done.
Qed.

Lemma default_admin_login_witness :
  login demo_checkpw (Some "admin") (Some "admin123") demo_app =
    LoggedIn 1 "admin" "System Admin" "admin".
Proof.
  apply (default_admin_login demo_hashpw demo_checkpw demo_app);
    [by intros salt; vm_compute | exact demo_app_reachable].
Defined.

(** ** all_queues *)

Lemma insert_sorted_fmap2 {A B} (le : A → A → bool) (le' : B → B → bool)
    (g : A → B) x l :
  (∀ x y, le' (g x) (g y) = le x y) →
  insert_sorted le' (g x) (g <$> l) = g <$> insert_sorted le x l.
Proof.
  intros Hg. induction l as [|y l IH]; [done|].
  cbn. rewrite Hg. destruct (le x y); [done|]. cbn. by rewrite <-IH.
Qed.

Lemma order_by_fmap2 {A B} (le : A → A → bool) (le' : B → B → bool) (g : A → B) l :
  (∀ x y, le' (g x) (g y) = le x y) →
  order_by le' (g <$> l) = g <$> order_by le l.
Proof.
  intros Hg. induction l as [|x l IH]; [done|].
  change (order_by le (x :: l)) with (insert_sorted le x (order_by le l)).
  rewrite <-(insert_sorted_fmap2 le le') by done. rewrite <-IH. done.
Qed.

(** The rows [all_queues] lists: the join of the waiting tickets with
    the whole [users] table, by position. *)
Lemma all_queues_rows S :
  ∃ rows, rows = order_by (λ r1 r2 : Queue.row * Accounts.row,
                   position_le (Queue.position r1.1) (Queue.position r2.1))
                 (omap (λ q, u ← accounts S !! Queue.user_id q; Some (q, u))
                       (waiting_rows (tickets S))) ∧
    all_queues S = (length rows,
      (λ q : Queue.row * Accounts.row,
         Listing.mk (Queue.id q.1) (Queue.ticket_number q.1)
                    (Users.full_name (Accounts.user q.2))
                    (Accounts.phone_number q.2) (Queue.position q.1)
                    (Queue.queue_type q.1) (Queue.join_time q.1) (Queue.status q.1))
      <$> rows).
Proof. eexists. split; [done|]. unfold all_queues. cbn zeta. by rewrite length_fmap. Qed.

Lemma omap_join_fst {B} (m : gmap Z B) (l : list Queue.row) :
  (∀ t, t ∈ l → is_Some (m !! Queue.user_id t)) →
  fst <$> omap (λ q, u ← m !! Queue.user_id q; Some (q, u)) l = l.
Proof.
  induction l as [|t l IH]; intros Hall; [done|].
  destruct (Hall t) as [u Hu]; [left|]. cbn. rewrite Hu. cbn.
  f_equal. apply IH. intros t' Ht'. apply Hall. by right.
Qed.

Lemma omap_join_length {B} (m : gmap Z B) (l : list Queue.row) :
  (length (omap (λ q, u ← m !! Queue.user_id q; Some (q, u)) l) ≤ length l)%nat.
Proof.
  induction l as [|t l IH]; [done|].
  cbn. destruct (m !! Queue.user_id t); cbn; lia.
Qed.

Lemma omap_join_elem_of {B} (m : gmap Z B) (l : list Queue.row) r :
  r ∈ omap (λ q, u ← m !! Queue.user_id q; Some (q, u)) l → r.1 ∈ l.
Proof.
  rewrite list_elem_of_omap. intros (t & Ht & Hr).
  destruct (m !! Queue.user_id t); [|done]. cbn in Hr. by simplify_eq.
Qed.

Lemma seq_positions_sorted start n :
  StronglySorted (λ a b, position_le a b = true) (Some <$> seq start n).
Proof.
  revert start. induction n as [|n IH]; intros start; [constructor|].
  cbn. constructor; [apply IH|].
  apply Forall_forall. intros p (k & -> & Hk%elem_of_seq)%list_elem_of_fmap.
  cbn. apply bool_decide_eq_true. lia.
Qed.

Lemma position_le_antisym p1 p2 :
  position_le p1 p2 = true → position_le p2 p1 = true → p1 = p2.
Proof.
  destruct p1, p2; cbn; try done.
  rewrite !bool_decide_eq_true. intros. f_equal. lia.
Qed.

(** X24. The list of [all_queues]: in every state of the application
    it holds waiting tickets only and never more than there are waiting
    tickets; when every waiting ticket belongs to a stored user, it holds
    all of them and their positions read 1, 2, ..., N down the list. *)
Theorem all_queues_positions hashpw S :
  app_reachable hashpw S →
  let n := length (waiting_rows (tickets S)) in
  (all_queues S).1 = length (all_queues S).2 ∧
  ((all_queues S).1 ≤ n)%nat ∧
  Forall (λ e, Listing.status e = waiting) (all_queues S).2 ∧
  ((∀ t, t ∈ waiting_rows (tickets S) → is_Some (accounts S !! Queue.user_id t)) →
   (all_queues S).1 = n ∧
   Listing.position <$> (all_queues S).2 = Some <$> seq 1 n).
Proof.
  intros Hs%app_reachable_view. cbn zeta.
  destruct (reachable_inv _ Hs) as [_ [Hperm _]]. cbn [view queue] in Hperm.
  destruct (all_queues_rows S) as (rows & Hrows & ->). cbn [fst snd].
  set (le := λ r1 r2 : Queue.row * Accounts.row, _) in Hrows.
  set (joined := omap _ _) in Hrows.
  assert (rows ≡ₚ joined) as Hp by (rewrite Hrows; apply order_by_perm).
  split_and!.
  - by rewrite length_fmap.
  - rewrite Hp. apply omap_join_length.
  - apply Forall_fmap, Forall_forall. intros r Hr. cbn. rewrite Hp in Hr.
    apply omap_join_elem_of, list_elem_of_filter in Hr. by destruct Hr.
  - intros Hall. pose proof (omap_join_fst _ _ Hall) as Hfst. fold joined in Hfst.
    split.
    { by rewrite Hp, <-Hfst, length_fmap. }
    rewrite <-list_fmap_compose.
    assert ((λ r : Queue.row * Accounts.row, Queue.position r.1) <$> rows
            = order_by position_le (Queue.position <$> waiting_rows (tickets S)))
      as Hsorted.
    { rewrite Hrows, <-Hfst, <-list_fmap_compose. symmetry.
      by apply order_by_fmap2. }
    etrans; [exact Hsorted|].
    apply (StronglySorted_unique_strong (λ a b, position_le a b = true)).
    + intros ? ? _ _. apply position_le_antisym.
    + apply order_by_sorted; [apply position_le_total | apply position_le_trans].
    + apply seq_positions_sorted.
    + by rewrite (order_by_perm position_le).
Qed.

Lemma all_queues_positions_witness :
  all_queues demo_app =
    (2%nat, [Listing.mk 1 "TICKET-001" "Bob" (Some "555-0100") (Some 1%nat)
                        "general" 100 waiting;
             Listing.mk 2 "TICKET-002" "Carol" (Some "") (Some 2%nat)
                        "vip" 101 waiting]) ∧
  (all_queues demo_app).1 = 2%nat ∧
  Listing.position <$> (all_queues demo_app).2 = Some <$> seq 1 2.
Proof.
  split; [by vm_compute|].
  destruct (all_queues_positions demo_hashpw demo_app demo_app_reachable)
    as (_ & _ & _ & Hall).
  assert (length (waiting_rows (tickets demo_app)) = 2%nat) as Hn by by vm_compute.
  rewrite Hn in Hall. apply Hall.
  assert (waiting_rows (tickets demo_app) =
            [demo_row 1 2 "general" waiting 100 None 1;
             demo_row 2 3 "vip" waiting 101 None 2]) as -> by by vm_compute.
  intros t Ht.
  repeat (apply elem_of_cons in Ht as [->|Ht];
          [eexists; vm_compute; reflexivity|]).
  by apply elem_of_nil in Ht.
Defined.




(** ** queue_stats in the application *)

(** X26. [queue_stats] counts every registered user: in every state of
    the application [total_users] is the number of rows of [users] minus
    one (the default admin), [waiting_in_queue] is the number of waiting
    tickets, and the database is returned unchanged. *)
Theorem queue_stats_total_users hashpw now S :
  app_reachable hashpw S →
  ∃ completed_today,
    queue_stats now (view S) =
      (view S, Stats (length (waiting_rows (tickets S))) completed_today
                     (size (accounts S) - 1)).
Proof.
  intros [_ (a & _ & Ha & Hrow & _) Hroles]%app_reachable_inv.
  unfold queue_stats. cbn zeta. eexists. f_equal. f_equal.
  change (users (view S)) with (Accounts.user <$> accounts S).
  assert (filter (λ iu : Z * Users.row, Users.role iu.2 ≠ "admin")
                 (Accounts.user <$> accounts S)
          = delete 1 (Accounts.user <$> accounts S)) as ->.
  { apply map_eq. intros i. apply option_eq. intros u.
    rewrite map_lookup_filter_Some, lookup_delete_Some, lookup_fmap. cbn.
    split.
    - intros [Hi Hr]. split; [|done]. intros <-.
      rewrite Ha in Hi. cbn in Hi. injection Hi as <-. by rewrite Hrow in Hr.
    - intros [Hne Hi]. split; [done|]. intros Hr.
      destruct (accounts S !! i) as [b|] eqn:Hb; [|done].
      cbn in Hi. injection Hi as <-. by apply Hne, eq_sym, (Hroles i b). }
  rewrite map_size_delete_Some, map_size_fmap by (by rewrite lookup_fmap, Ha).
  lia.
Qed.

Lemma queue_stats_total_users_witness :
  ∃ completed_today,
    queue_stats 300 (view demo_app) = (view demo_app, Stats 2 completed_today 2).
Proof.
  destruct (queue_stats_total_users demo_hashpw 300 demo_app demo_app_reachable)
    as [c Hc].
  exists c. rewrite Hc. do 2 f_equal.
Defined.
